(** * qreph: a one-shot note server

    A shallow embedding of [main.go]: the [noteStore] with its
    mutex-and-once guarded [get], the HTTP handler registered on the
    secret path, the start-up sequence of [main] and the shutdown race
    between the [done] and [stop] channels.

    Goroutines are modelled by an interleaving semantics: every handler
    goroutine is a frame with a program counter, the scheduler picks
    the frame that takes the next step, and [sync.Mutex] blocks a frame
    whose [Lock] finds the mutex taken. *)

From Stdlib Require Import ZArith Lia Bool Ascii String.
From Stdlib.Strings Require Import Byte.
From stdpp Require Import base tactics option list strings pretty gmap.

Local Open Scope nat_scope.

(** ** Byte slices

    A Go [[]byte] is either the nil slice or a (possibly empty) run of
    bytes; [note == nil] in the handler tells the two apart, [len]
    does not. *)

Module Slice.

Definition t : Type := option (list byte).

Definition nil : t := None.

Definition len (b : t) : nat :=
  match b with
  | None => 0
  | Some l => length l
  end.

Definition is_nil (b : t) : bool :=
  match b with
  | None => true
  | Some _ => false
  end.

Definition of_string (s : string) : t := Some (list_byte_of_string s).

End Slice.

(** ** The note store *)

(** [type noteStore struct { content []byte; once sync.Once; mu sync.Mutex }].
    [once] is the [done] flag of the [sync.Once], [mu] is [true] while
    the mutex is held. *)
Record noteStore : Type := mkNoteStore {
  content : Slice.t;
  once : bool;
  mu : bool;
}.

(** [&noteStore{content: content}]: the zero [Once] and the zero
    [Mutex]. *)
Definition newNoteStore (c : Slice.t) : noteStore :=
  {| content := c; once := false; mu := false |}.

Definition set_content (c : Slice.t) (s : noteStore) : noteStore :=
  {| content := c; once := once s; mu := mu s |}.

Definition set_once (b : bool) (s : noteStore) : noteStore :=
  {| content := content s; once := b; mu := mu s |}.

Definition set_mu (b : bool) (s : noteStore) : noteStore :=
  {| content := content s; once := once s; mu := b |}.

(** [sync.Once.Do(f)]: [f] runs when the flag is clear, and the flag is
    set when [f] has returned.  The closure works on the store and on the
    variables it captures, here a state of type [L]. *)
Definition Once_Do {L : Type} (f : noteStore * L → noteStore * L)
    (st : noteStore * L) : noteStore * L :=
  if once st.1 then st
  else let st' := f st in (set_once true st'.1, st'.2).

(** The closure of [get]: [content = s.content; s.content = nil]. *)
Definition get_closure (st : noteStore * Slice.t) : noteStore * Slice.t :=
  let content_ := content st.1 in
  (set_content Slice.nil st.1, content_).

(** [func (s *noteStore) get() []byte], run without interruption.
    [None] when [s.mu.Lock()] finds the mutex held: the call blocks. *)
Definition get (s : noteStore) : option (Slice.t * noteStore) :=
  if mu s then None
  else
    let s := set_mu true s in
    let st := Once_Do get_closure (s, Slice.nil) in
    Some (st.2, set_mu false st.1).

(** ** [get], one statement at a time

    Between two goroutines the scheduler can switch after every
    statement, so [get] is also given as a machine that takes one step
    per statement.  The [sync.Once] has a mutex of its own; it is always
    entered with [s.mu] held, so only its flag is modelled. *)

Inductive get_pc : Type :=
  | GLock      (* s.mu.Lock() *)
  | GOnce      (* s.once.Do: test the flag *)
  | GRead      (* content = s.content *)
  | GClear     (* s.content = nil *)
  | GSetDone   (* the Once sets its flag, the closure has returned *)
  | GUnlock    (* deferred s.mu.Unlock() *)
  | GRet.      (* returned content *)

(** The frame of a call of [get]: where it is and its variable
    [content]. *)
Record get_frame : Type := mkFrame {
  gpc : get_pc;
  local : Slice.t;
}.

(** A call that has not started: [var content []byte] is nil. *)
Definition frame0 : get_frame := {| gpc := GLock; local := Slice.nil |}.

Definition goto (pc : get_pc) (f : get_frame) : get_frame :=
  {| gpc := pc; local := local f |}.

(** One step of a call; [None] when the call cannot move (blocked on
    the mutex, or returned). *)
Definition get_step (s : noteStore) (f : get_frame)
    : option (noteStore * get_frame) :=
  match gpc f with
  | GLock => if mu s then None else Some (set_mu true s, goto GOnce f)
  | GOnce => if once s then Some (s, goto GUnlock f) else Some (s, goto GRead f)
  | GRead => Some (s, {| gpc := GClear; local := content s |})
  | GClear => Some (set_content Slice.nil s, goto GSetDone f)
  | GSetDone => Some (set_once true s, goto GUnlock f)
  | GUnlock => Some (set_mu false s, goto GRet f)
  | GRet => None
  end.

(** Runs a call alone for at most [n] steps. *)
Fixpoint get_run (n : nat) (s : noteStore) (f : get_frame)
    : noteStore * get_frame :=
  match n with
  | 0 => (s, f)
  | S n =>
      match get_step s f with
      | Some (s', f') => get_run n s' f'
      | None => (s, f)
      end
  end.

Definition holds (f : get_frame) : bool :=
  match gpc f with
  | GLock | GRet => false
  | _ => true
  end.

Definition returned (f : get_frame) : bool :=
  match gpc f with
  | GRet => true
  | _ => false
  end.

(** The call is past the [Once] and carries the payload. *)
Definition winner (f : get_frame) : bool :=
  match gpc f with
  | GUnlock | GRet => negb (Slice.is_nil (local f))
  | _ => false
  end.

Definition pc_rank (pc : get_pc) : nat :=
  match pc with
  | GLock => 0 | GOnce => 1 | GRead => 2 | GClear => 3
  | GSetDone => 4 | GUnlock => 5 | GRet => 6
  end.

Fixpoint count {A : Type} (p : A → bool) (l : list A) : nat :=
  match l with
  | [] => 0
  | x :: l => (if p x then 1 else 0) + count p l
  end.

(** ** Concurrent calls of [get] on one store *)

Module Pool.

Record t : Type := mk {
  store : noteStore;
  frames : list get_frame;
}.

(** [n] calls on a store just built around [c]. *)
Definition init (c : Slice.t) (n : nat) : t :=
  {| store := newNoteStore c; frames := replicate n frame0 |}.

(** The scheduler lets call [i] take its next step. *)
Definition step (i : nat) (p : t) : option t :=
  f ← frames p !! i;
  '(s', f') ← get_step (store p) f;
  Some {| store := s'; frames := <[i := f']> (frames p) |}.

(** A schedule names the call that moves next; a call that cannot move
    leaves the state as it is. *)
Definition exec (sched : list nat) (p : t) : t :=
  foldl (λ p i, default p (step i p)) p sched.

(** What the calls returned; [None] for a call still running. *)
Definition results (p : t) : list (option Slice.t) :=
  (λ f, if returned f then Some (local f) else None) <$> frames p.

Definition all_returned (p : t) : bool := forallb returned (frames p).

Definition progress (p : t) : nat :=
  foldr (λ f n, pc_rank (gpc f) + n) 0 (frames p).

End Pool.

(** ** The invariant of the store under concurrent calls *)

(** What a call at each statement knows about its variable and about
    the store built around [c]. *)
Definition frame_inv (c : Slice.t) (s : noteStore) (f : get_frame) : Prop :=
  match gpc f with
  | GLock => local f = Slice.nil
  | GOnce => local f = Slice.nil ∧ (once s = false → content s = c)
  | GRead => local f = Slice.nil ∧ once s = false ∧ content s = c
  | GClear => local f = c ∧ once s = false ∧ content s = c
  | GSetDone => local f = c ∧ once s = false ∧ content s = Slice.nil
  | GUnlock | GRet =>
      once s = true ∧ (local f = Slice.nil ∨ local f = c)
  end.

Record pool_inv (c : Slice.t) (p : Pool.t) : Prop := mkPoolInv {
  inv_frames : Forall (frame_inv c (Pool.store p)) (Pool.frames p);
  inv_mutex : count holds (Pool.frames p) = Nat.b2n (mu (Pool.store p));
  inv_winner : count winner (Pool.frames p) = Nat.b2n (once (Pool.store p));
  inv_released : once (Pool.store p) = true → content (Pool.store p) = Slice.nil;
  inv_loaded :
    mu (Pool.store p) = false → once (Pool.store p) = false →
    content (Pool.store p) = c;
}.

(** ** The response writer

    What the handler does to its [http.ResponseWriter]: the header map,
    the status line once it is written (with the header as it stood at
    that moment: later changes of the map are not sent), and the body. *)

Record ResponseWriter : Type := mkResponse {
  header : gmap string (list string);
  status : option nat;
  sent_header : gmap string (list string);
  body : list byte;
}.

Definition newResponse : ResponseWriter :=
  {| header := ∅; status := None; sent_header := ∅; body := [] |}.

Definition StatusOK : nat := 200.
Definition StatusNotFound : nat := 404.

(** [w.Header().Set(k, v)] *)
Definition Header_Set (k v : string) (w : ResponseWriter) : ResponseWriter :=
  {| header := <[k := [v]]> (header w); status := status w;
     sent_header := sent_header w; body := body w |}.

(** [w.Header().Del(k)] *)
Definition Header_Del (k : string) (w : ResponseWriter) : ResponseWriter :=
  {| header := delete k (header w); status := status w;
     sent_header := sent_header w; body := body w |}.

(** [w.WriteHeader(code)]; a second call is ignored. *)
Definition WriteHeader (code : nat) (w : ResponseWriter) : ResponseWriter :=
  match status w with
  | Some _ => w
  | None =>
      {| header := header w; status := Some code;
         sent_header := header w; body := body w |}
  end.

(** [w.Write(b)]: writes the status line with 200 when none was
    written, then the bytes. *)
Definition Write (b : list byte) (w : ResponseWriter) : ResponseWriter :=
  let w := WriteHeader StatusOK w in
  {| header := header w; status := status w;
     sent_header := sent_header w; body := body w ++ b |}.

(** [http.Error(w, error, code)] of net/http. *)
Definition Error (error : string) (code : nat) (w : ResponseWriter)
    : ResponseWriter :=
  let w := Header_Del "Content-Length" w in
  let w := Header_Set "Content-Type" "text/plain; charset=utf-8" w in
  let w := Header_Set "X-Content-Type-Options" "nosniff" w in
  let w := WriteHeader code w in
  Write (list_byte_of_string (error +:+ String "010" EmptyString)) w.

(** [http.NotFound(w, r)] *)
Definition NotFound (w : ResponseWriter) : ResponseWriter :=
  Error "404 page not found" StatusNotFound w.

(** ** The [done] channel

    [done] is never sent on, only closed.  Closing a closed channel
    panics. *)

Definition close (closed : bool) : option bool :=
  if closed then None else Some true.

(** ** The handler registered on the secret path *)

(** What a run of the handler leaves behind. *)
Record handled : Type := mkHandled {
  h_store : noteStore;
  h_done : bool;
  h_response : ResponseWriter;
  h_closes : nat;        (* how often [close(done)] was executed *)
  h_panicked : bool;
}.

(** The handler, run without interruption on a fresh response writer.
    [None] when [store.get()] blocks. *)
Definition handler (s : noteStore) (done : bool) : option handled :=
  '(note, s) ← get s;
  let w := newResponse in
  match note with
  | None =>
      Some {| h_store := s; h_done := done; h_response := NotFound w;
              h_closes := 0; h_panicked := false |}
  | Some bytes =>
      let w := Header_Set "Content-Type" "text/plain; charset=utf-8" w in
      let w := Write bytes w in
      match close done with
      | Some done =>
          Some {| h_store := s; h_done := done; h_response := w;
                  h_closes := 1; h_panicked := false |}
      | None =>
          Some {| h_store := s; h_done := done; h_response := w;
                  h_closes := 1; h_panicked := true |}
      end
  end.

(** The handler, one statement at a time. *)
Inductive handler_pc : Type :=
  | HGet        (* note := store.get(), the call is running *)
  | HIfNil      (* if note == nil *)
  | HNotFound   (* http.NotFound(w, r); return *)
  | HSetHeader  (* w.Header().Set("Content-Type", ...) *)
  | HWrite      (* w.Write(note) *)
  | HClose      (* close(done) *)
  | HReturn     (* the handler has returned *)
  | HPanic.     (* the handler has panicked *)

Record handler_frame : Type := mkHandler {
  hpc : handler_pc;
  call : get_frame;
  note : Slice.t;
  resp : ResponseWriter;
}.

(** A handler goroutine just started for a request. *)
Definition handler0 : handler_frame :=
  {| hpc := HGet; call := frame0; note := Slice.nil; resp := newResponse |}.

Definition hgoto (pc : handler_pc) (h : handler_frame) : handler_frame :=
  {| hpc := pc; call := call h; note := note h; resp := resp h |}.

Definition set_resp (w : ResponseWriter) (h : handler_frame) : handler_frame :=
  {| hpc := hpc h; call := call h; note := note h; resp := w |}.

(** One step of a handler on the store and the channel; the third
    component tells whether the step executed [close(done)]. *)
Definition handler_step (s : noteStore) (done : bool) (h : handler_frame)
    : option (noteStore * bool * handler_frame) :=
  match hpc h with
  | HGet =>
      match gpc (call h) with
      | GRet =>
          Some (s, done,
                {| hpc := HIfNil; call := call h; note := local (call h);
                   resp := resp h |})
      | _ =>
          '(s', f') ← get_step s (call h);
          Some (s', done,
                {| hpc := HGet; call := f'; note := note h; resp := resp h |})
      end
  | HIfNil =>
      if Slice.is_nil (note h) then Some (s, done, hgoto HNotFound h)
      else Some (s, done, hgoto HSetHeader h)
  | HNotFound => Some (s, done, hgoto HReturn (set_resp (NotFound (resp h)) h))
  | HSetHeader =>
      Some (s, done,
            hgoto HWrite
              (set_resp
                 (Header_Set "Content-Type" "text/plain; charset=utf-8"
                    (resp h)) h))
  | HWrite =>
      Some (s, done,
            hgoto HClose (set_resp (Write (default [] (note h)) (resp h)) h))
  | HClose =>
      match close done with
      | Some done' => Some (s, done', hgoto HReturn h)
      | None => Some (s, done, hgoto HPanic h)
      end
  | HReturn | HPanic => None
  end.

Definition closing (h : handler_frame) : bool :=
  match hpc h with
  | HClose => true
  | _ => false
  end.

Definition finished (h : handler_frame) : bool :=
  match hpc h with
  | HReturn | HPanic => true
  | _ => false
  end.

(** The handler has answered with the note and closed [done]. *)
Definition delivered (h : handler_frame) : bool :=
  match hpc h with
  | HReturn => negb (Slice.is_nil (note h))
  | _ => false
  end.

(** Runs a handler alone for at most [n] steps. *)
Fixpoint handler_run (n : nat) (s : noteStore) (done : bool)
    (h : handler_frame) : noteStore * bool * handler_frame :=
  match n with
  | 0 => (s, done, h)
  | S n =>
      match handler_step s done h with
      | Some (s', done', h') => handler_run n s' done' h'
      | None => (s, done, h)
      end
  end.

(** ** Calls that can fail *)

Inductive result (A : Type) : Type :=
  | Ok (a : A)
  | Err (e : string).
Arguments Ok {A} a.
Arguments Err {A} e.

(** ** What [main] does, in order *)

Inductive effect : Type :=
  | EStat                    (* os.Stdin.Stat() *)
  | EReadAll                 (* io.ReadAll(os.Stdin) *)
  | EPrintln (line : string) (* fmt.Println *)
  | ELog (line : string)     (* log.Printf, and the message of log.Fatal *)
  | ENewStore (c : Slice.t)  (* &noteStore{content: content} *)
  | ERandRead (n : nat)      (* rand.Read on a buffer of n bytes *)
  | ENewMux (path : string)  (* mux.HandleFunc(path, ...) *)
  | EListen                  (* net.Listen("tcp", ":0") *)
  | EGoServe                 (* go server.Serve(listener) *)
  | EDial                    (* net.Dial("udp", "8.8.8.8:80") *)
  | EQR (url : string)       (* qrterminal.Generate(url, ...) *)
  | ENotify                  (* signal.Notify(stop, SIGINT, SIGTERM) *)
  | EShutdown (timeout : Z)  (* server.Shutdown(ctx), timeout in ns *)
  | EExit (code : nat).      (* the process ends *)

Definition is_shutdown (e : effect) : bool :=
  match e with
  | EShutdown _ => true
  | _ => false
  end.

Definition is_serve (e : effect) : bool :=
  match e with
  | EGoServe => true
  | _ => false
  end.

Definition is_construction (e : effect) : bool :=
  match e with
  | ENewStore _ | ERandRead _ | ENewMux _ | EListen | EGoServe => true
  | _ => false
  end.

(** [log.Fatal]/[log.Fatalf]: the message, then [os.Exit(1)]. *)
Definition fatal (msg : string) : list effect := [ELog msg; EExit 1].

(** ** Discovering the outbound address *)

(** [conn.LocalAddr()] is a [net.Addr]; the code asserts it to be a
    [*net.UDPAddr]. *)
Inductive Addr : Type :=
  | UDPAddr (ip : string)
  | OtherAddr.

(** [getOutboundIP], given what [net.Dial] returns. *)
Definition getOutboundIP (dial : result Addr) : result string :=
  match dial with
  | Err e => Err e
  | Ok (UDPAddr ip) => Ok ip
  | Ok OtherAddr => Err "could not assert type to *net.UDPAddr"
  end.

(** ** The server and the main goroutine after the listener is bound *)

Inductive signal : Type := SIGINT | SIGTERM.

Inductive select_case : Type :=
  | Delivered     (* case <-done *)
  | Interrupted.  (* case <-stop *)

Inductive main_pc : Type :=
  | MGo                        (* go func() { server.Serve(listener) }() *)
  | MGetOutboundIP             (* ip, err := getOutboundIP() *)
  | MPrintURL (ip : string)    (* url := ...; Println; qrterminal.Generate *)
  | MNotify                    (* stop := make(...); signal.Notify(...) *)
  | MSelect                    (* select { case <-done: case <-stop: } *)
  | MShutdown (c : select_case)  (* ctx, cancel := ...; server.Shutdown(ctx) *)
  | MWait (c : select_case)    (* inside server.Shutdown *)
  | MLog (e : string)          (* log.Printf("server shutdown failed: ...") *)
  | MExit (code : nat).        (* the process has ended *)

(** Where [main] is, as a number that only grows. *)
Definition main_rank (pc : main_pc) : nat :=
  match pc with
  | MGo => 0 | MGetOutboundIP => 1 | MPrintURL _ => 2 | MNotify => 3
  | MSelect => 4 | MShutdown _ => 5 | MWait _ => 6 | MLog _ => 7
  | MExit _ => 8
  end.

(** [5*time.Second], a [time.Duration] in nanoseconds. *)
Definition shutdownTimeout : Z := 5 * 1000000000.

Module Server.

Record t : Type := mk {
  store : noteStore;
  path : string;
  port : nat;
  handlers : list handler_frame;   (* the handler goroutines *)
  done : bool;                     (* [done] is closed *)
  stop : list signal;              (* the buffer of [stop], capacity 1 *)
  notified : bool;                 (* signal.Notify has registered [stop] *)
  accepting : bool;                (* server.Serve is accepting requests *)
  pc : main_pc;
  trace : list effect;
  closes : nat;                    (* executions of [close(done)] *)
  received : list signal;          (* what main has taken from [stop] *)
}.

Definition set_pc (pc' : main_pc) (s : t) : t :=
  mk (store s) (path s) (port s) (handlers s) (done s) (stop s) (notified s)
     (accepting s) pc' (trace s) (closes s) (received s).

Definition emit (es : list effect) (s : t) : t :=
  mk (store s) (path s) (port s) (handlers s) (done s) (stop s) (notified s)
     (accepting s) (pc s) (trace s ++ es) (closes s) (received s).

Definition set_accepting (b : bool) (s : t) : t :=
  mk (store s) (path s) (port s) (handlers s) (done s) (stop s) (notified s)
     b (pc s) (trace s) (closes s) (received s).

Definition set_notified (b : bool) (s : t) : t :=
  mk (store s) (path s) (port s) (handlers s) (done s) (stop s) b
     (accepting s) (pc s) (trace s) (closes s) (received s).

Definition set_stop (q : list signal) (s : t) : t :=
  mk (store s) (path s) (port s) (handlers s) (done s) q (notified s)
     (accepting s) (pc s) (trace s) (closes s) (received s).

Definition receive (sig : signal) (s : t) : t :=
  mk (store s) (path s) (port s) (handlers s) (done s) (stop s) (notified s)
     (accepting s) (pc s) (trace s) (closes s) (received s ++ [sig]).

Definition set_handlers (hs : list handler_frame) (s : t) : t :=
  mk (store s) (path s) (port s) hs (done s) (stop s) (notified s)
     (accepting s) (pc s) (trace s) (closes s) (received s).

(** The state of the program when the listener is bound. *)
Definition init (c : Slice.t) (path : string) (port : nat)
    (tr : list effect) : t :=
  {| store := newNoteStore c; path := path; port := port; handlers := [];
     done := false; stop := []; notified := false; accepting := false;
     pc := MGo; trace := tr; closes := 0; received := [] |}.

Definition alive (s : t) : bool :=
  match pc s with
  | MExit _ => false
  | _ => true
  end.

(** [log.Fatal] in whatever goroutine ends the process. *)
Definition die (msg : string) (s : t) : t :=
  set_pc (MExit 1) (emit (fatal msg) s).

(** What can happen next. *)
Inductive label : Type :=
  | LMain                              (* main runs a statement *)
  | LDial (r : result Addr)            (* main: net.Dial returns *)
  | LSelect (c : select_case)          (* main: select takes a case *)
  | LShutdownReturns (err : option string)  (* main: Shutdown returns *)
  | LServeFails (err : string)         (* Serve returns an error *)
  | LRequest                           (* a request for the secret path *)
  | LHandler (i : nat)                 (* handler goroutine i runs *)
  | LSignal (sig : signal).            (* the runtime relays a signal *)

(** [fmt.Sprintf("http://%s:%d%s", ip, port, path)] *)
Definition url (ip : string) (s : t) : string :=
  "http://" +:+ ip +:+ ":" +:+ pretty (port s) +:+ path s.

(** Statements of main that need nothing from outside. *)
Definition main_step (s : t) : option t :=
  match pc s with
  | MGo => Some (set_pc MGetOutboundIP (set_accepting true (emit [EGoServe] s)))
  | MPrintURL ip =>
      Some (set_pc MNotify
              (emit [EPrintln ("Serving note at: " +:+ url ip s);
                     EQR (url ip s)] s))
  | MNotify => Some (set_pc MSelect (set_notified true (emit [ENotify] s)))
  | MShutdown c =>
      Some (set_pc (MWait c)
              (set_accepting false (emit [EShutdown shutdownTimeout] s)))
  | MLog e =>
      Some (set_pc (MExit 0)
              (emit [ELog ("server shutdown failed: " +:+ e); EExit 0] s))
  | _ => None
  end.

(** Step of handler [i]. *)
Definition handler_move (i : nat) (s : t) : option t :=
  h ← handlers s !! i;
  '(st, d, h') ← handler_step (store s) (done s) h;
  Some (mk st (path s) (port s) (<[i := h']> (handlers s)) d (stop s)
          (notified s) (accepting s) (pc s) (trace s)
          (closes s + Nat.b2n (closing h)) (received s)).

(** The step for a label; [None] when the label is not enabled.
    Nothing moves once the process has ended. *)
Definition step (l : label) (s : t) : option t :=
  if alive s then
    match l with
    | LMain => main_step s
    | LDial r =>
        match pc s with
        | MGetOutboundIP =>
            match getOutboundIP r with
            | Err e =>
                Some (die ("failed to get outbound ip: " +:+ e)
                        (emit [EDial] s))
            | Ok ip => Some (set_pc (MPrintURL ip) (emit [EDial] s))
            end
        | _ => None
        end
    | LSelect Delivered =>
        match pc s with
        | MSelect => if done s then Some (set_pc (MShutdown Delivered) s) else None
        | _ => None
        end
    | LSelect Interrupted =>
        match pc s, stop s with
        | MSelect, sig :: q =>
            Some (set_pc (MShutdown Interrupted) (receive sig (set_stop q s)))
        | _, _ => None
        end
    | LShutdownReturns err =>
        match pc s, err with
        | MWait _, None =>
            (* a clean return: no handler is still running *)
            if forallb finished (handlers s)
            then Some (set_pc (MExit 0) (emit [EExit 0] s))
            else None
        | MWait _, Some e => Some (set_pc (MLog e) s)
        | _, _ => None
        end
    | LServeFails err =>
        if accepting s then Some (die ("server failed: " +:+ err) s) else None
    | LRequest =>
        if accepting s then Some (set_handlers (handlers s ++ [handler0]) s)
        else None
    | LHandler i => handler_move i s
    | LSignal sig =>
        if notified s then
          (* a send that does not block: dropped when the buffer is full *)
          if length (stop s) <? 1 then Some (set_stop (stop s ++ [sig]) s)
          else Some s
        else None
    end
  else None.

(** A run: labels that are not enabled are skipped. *)
Definition run (ls : list label) (s : t) : t :=
  foldl (λ s l, default s (step l s)) s ls.

Definition shutdown_calls (s : t) : list effect :=
  List.filter is_shutdown (trace s).

Definition exit_code (s : t) : option nat :=
  match pc s with
  | MExit code => Some code
  | _ => None
  end.

End Server.

(** ** [encoding/base64], the URL encoding with padding *)

Module Base64.

(** [encodeURL], the alphabet of [base64.URLEncoding]. *)
Definition encodeURL : string :=
  "ABCDEFGHIJKLMNOPQRSTUVWXYZabcdefghijklmnopqrstuvwxyz0123456789-_".

Definition alphabet : list byte := list_byte_of_string encodeURL.

(** [StdPadding] *)
Definition padChar : byte := "=".

(** [uint(b)] *)
Definition uint (b : byte) : Z := Z.of_N (Byte.to_N b).

(** [enc.encode[v]] *)
Definition enc (v : Z) : byte := nth (Z.to_nat v) alphabet "A"%byte.

(** [val>>k&0x3F] *)
Definition sextet (val k : Z) : Z := Z.land (Z.shiftr val k) 63.

(** [Encode]: three bytes become four characters; a tail of one or two
    bytes is padded to four. *)
Fixpoint Encode (src : list byte) : list byte :=
  match src with
  | a :: b :: c :: rest =>
      let val :=
        Z.lor (Z.lor (Z.shiftl (uint a) 16) (Z.shiftl (uint b) 8)) (uint c) in
      enc (sextet val 18) :: enc (sextet val 12) ::
      enc (sextet val 6) :: enc (Z.land val 63) :: Encode rest
  | [a; b] =>
      let val := Z.lor (Z.shiftl (uint a) 16) (Z.shiftl (uint b) 8) in
      [enc (sextet val 18); enc (sextet val 12); enc (sextet val 6); padChar]
  | [a] =>
      let val := Z.shiftl (uint a) 16 in
      [enc (sextet val 18); enc (sextet val 12); padChar; padChar]
  | [] => []
  end.

Definition EncodeToString (src : list byte) : string :=
  string_of_list_byte (Encode src).

(** [EncodedLen(n)] with padding. *)
Definition EncodedLen (n : nat) : nat := (n + 2) / 3 * 4.

(** The characters of RFC 3986 that need no escaping in a path
    segment and that the alphabet uses. *)
Definition unreserved (b : byte) : bool :=
  let n := Byte.to_N b in
  ((65 <=? n) && (n <=? 90) || (97 <=? n) && (n <=? 122)
   || (48 <=? n) && (n <=? 57) || (n =? 45) || (n =? 95))%N.

(** The value of a character in the alphabet, for decoding. *)
Fixpoint index_of (b : byte) (l : list byte) : option nat :=
  match l with
  | [] => None
  | x :: l =>
      if Byte.eqb b x then Some 0 else S <$> index_of b l
  end.

End Base64.

(** ** Start-up: from the arguments to the bound listener *)

(** [os.ModeCharDevice] *)
Definition ModeCharDevice : Z := Z.shiftl 1 21.

(** What the process finds around it. *)
Record Env : Type := mkEnv {
  stdin_stat : result Z;            (* os.Stdin.Stat(): the mode bits *)
  stdin_data : result (list byte);  (* io.ReadAll(os.Stdin) *)
  args : list string;               (* os.Args *)
  entropy : list byte;              (* what the random source delivers *)
  listen : result nat;              (* net.Listen: the port it got *)
}.

(** [rand.Read(b)]: fills [b] from the source; an error when the source
    has fewer bytes than the buffer. *)
Definition rand_Read (src b : list byte) : list byte * option string :=
  let n := Nat.min (length b) (length src) in
  (take n src ++ drop n b,
   if n <? length b then Some "unexpected EOF" else None).

Definition usage : string := "usage: qreph <text> | <command> | qreph".

(** Lines 58 to 75: where the content comes from.  [None] when the
    process has ended. *)
Definition read_content (env : Env) : list effect * option Slice.t :=
  match stdin_stat env with
  | Err e => (EStat :: fatal ("failed to stat stdin: " +:+ e), None)
  | Ok mode =>
      if (Z.land mode ModeCharDevice =? 0)%Z then
        match stdin_data env with
        | Err e =>
            (EStat :: EReadAll :: fatal ("failed to read from stdin: " +:+ e),
             None)
        | Ok data => ([EStat; EReadAll], Some (Some data))
        end
      else if length (args env) <? 2 then
        ([EStat; EPrintln usage; EExit 0], None)
      else
        ([EStat], Some (Slice.of_string (String.concat " " (tail (args env)))))
  end.

Inductive startup : Type :=
  | Exited (tr : list effect)
  | Listening (srv : Server.t).

(** Lines 56 to 111 of [main]. *)
Definition start (env : Env) : startup :=
  match read_content env with
  | (tr, None) => Exited tr
  | (tr, Some content) =>
      if Slice.len content =? 0 then
        Exited (tr ++ fatal "no content provided")
      else
        let tr := tr ++ [ENewStore content] in
        let '(randomBytes, err) := rand_Read (entropy env) (replicate 32 "000"%byte) in
        let tr := tr ++ [ERandRead 32] in
        match err with
        | Some e =>
            Exited (tr ++ fatal ("failed to generate random bytes: " +:+ e))
        | None =>
            let path := "/" +:+ Base64.EncodeToString randomBytes in
            let tr := tr ++ [ENewMux path] in
            match listen env with
            | Err e =>
                Exited (tr ++ EListen ::
                          fatal ("failed to create listener: " +:+ e))
            | Ok port =>
                Listening (Server.init content path port (tr ++ [EListen]))
            end
        end
  end.

(** The whole program: start-up, then the run of the server under the
    given labels.  The result is the trace of [main]. *)
Definition main (env : Env) (ls : list Server.label) : list effect :=
  match start env with
  | Exited tr => tr
  | Listening srv => Server.trace (Server.run ls srv)
  end.

(** The exit status, when the trace ends with the end of the process. *)
Definition exit_status (tr : list effect) : option nat :=
  match last tr with
  | Some (EExit code) => Some code
  | _ => None
  end.

(** ** The invariant of the running server *)

(** The response that carries the note. *)
Definition note_response (c : Slice.t) : ResponseWriter :=
  Write (default [] c)
    (Header_Set "Content-Type" "text/plain; charset=utf-8" newResponse).

(** What a handler at each statement has done so far, for a store built
    around [c]. *)
Definition handler_inv (c : Slice.t) (h : handler_frame) : Prop :=
  match hpc h with
  | HGet => note h = Slice.nil ∧ resp h = newResponse
  | HIfNil =>
      gpc (call h) = GRet ∧ note h = local (call h) ∧ resp h = newResponse
  | HNotFound =>
      gpc (call h) = GRet ∧ note h = local (call h) ∧
      note h = Slice.nil ∧ resp h = newResponse
  | HSetHeader =>
      gpc (call h) = GRet ∧ note h = local (call h) ∧
      note h = c ∧ resp h = newResponse
  | HWrite =>
      gpc (call h) = GRet ∧ note h = local (call h) ∧ note h = c ∧
      resp h = Header_Set "Content-Type" "text/plain; charset=utf-8" newResponse
  | HClose =>
      gpc (call h) = GRet ∧ note h = local (call h) ∧ note h = c ∧
      resp h = note_response c
  | HReturn =>
      gpc (call h) = GRet ∧ note h = local (call h) ∧
      ((note h = Slice.nil ∧ resp h = NotFound newResponse) ∨
       (note h = c ∧ resp h = note_response c))
  | HPanic => False
  end.

(** Effects that only the part of [main] after the listener produces. *)
Definition late (e : effect) : bool :=
  match e with
  | EGoServe | EDial | EPrintln _ | EQR _ | ENotify | EShutdown _ | EExit _ =>
      true
  | _ => false
  end.

Definition is_display (e : effect) : bool :=
  match e with
  | EPrintln _ | EQR _ => true
  | _ => false
  end.

Record srv_inv (c : Slice.t) (s : Server.t) : Prop := mkSrvInv {
  si_pool :
    pool_inv c (Pool.mk (Server.store s) (call <$> Server.handlers s));
  si_handlers : Forall (handler_inv c) (Server.handlers s);
  si_delivered :
    count delivered (Server.handlers s) = Nat.b2n (Server.done s);
  si_closes : Server.closes s = Nat.b2n (Server.done s);
  si_stop : length (Server.stop s) ≤ 1;
  si_received :
    length (Server.received s) ≤ 1 ∧
    (main_rank (Server.pc s) ≤ 4 → Server.received s = []);
  si_shutdown :
    Server.shutdown_calls s =
      match Server.pc s with
      | MWait _ | MLog _ | MExit 0 => [EShutdown shutdownTimeout]
      | _ => []
      end;
  si_accepting :
    match Server.pc s with
    | MGo | MWait _ | MLog _ | MExit 0 => Server.accepting s = false
    | MExit _ => True
    | _ => Server.accepting s = true
    end;
  si_exit :
    ∀ code, Server.pc s = MExit code →
            last (Server.trace s) = Some (EExit code) ∧ (code = 0 ∨ code = 1);
  si_display :
    main_rank (Server.pc s) ≤ 2 → count is_display (Server.trace s) = 0;
}.

(** The handler is on the way to [close(done)], or has been there. *)
Definition on_close_path (h : handler_frame) : bool :=
  match hpc h with
  | HSetHeader | HWrite | HClose => true
  | HReturn => negb (Slice.is_nil (note h))
  | _ => false
  end.

(** ** An example environment

    The note [hello] piped into the process, a random source that
    delivers bytes of value one, and port 4242. *)

Definition hello : list byte := list_byte_of_string "hello".

Definition env_hello : Env :=
  {| stdin_stat := Ok 0%Z;
     stdin_data := Ok hello;
     args := ["qreph"];
     entropy := replicate 32 "001"%byte;
     listen := Ok 4242 |}.

Definition path_hello : string :=
  "/AQEBAQEBAQEBAQEBAQEBAQEBAQEBAQEBAQEBAQEBAQE=".

Definition srv_hello : Server.t :=
  Server.init (Some hello) path_hello 4242
    [EStat; EReadAll; ENewStore (Some hello); ERandRead 32;
     ENewMux path_hello; EListen].

(** Two requests race for the note; the second loses. *)
Definition race_hello : list Server.label :=
  [Server.LMain; Server.LRequest; Server.LRequest;
   Server.LHandler 0; Server.LHandler 1; Server.LHandler 0;
   Server.LHandler 0; Server.LHandler 0; Server.LHandler 0;
   Server.LHandler 0; Server.LHandler 1; Server.LHandler 1;
   Server.LHandler 1; Server.LHandler 1; Server.LHandler 0;
   Server.LHandler 0; Server.LHandler 0; Server.LHandler 0;
   Server.LHandler 0; Server.LHandler 1; Server.LHandler 1;
   Server.LHandler 1; Server.LHandler 1].

(** Standard input is a terminal and there are no arguments. *)
Definition env_usage : Env :=
  {| stdin_stat := Ok ModeCharDevice;
     stdin_data := Ok [];
     args := ["qreph"];
     entropy := replicate 32 "001"%byte;
     listen := Ok 4242 |}.

(** Nothing is piped in. *)
Definition env_empty : Env :=
  {| stdin_stat := Ok 0%Z;
     stdin_data := Ok [];
     args := ["qreph"];
     entropy := replicate 32 "001"%byte;
     listen := Ok 4242 |}.

(** The random source runs dry after five bytes. *)
Definition env_starved : Env :=
  {| stdin_stat := Ok 0%Z;
     stdin_data := Ok hello;
     args := ["qreph"];
     entropy := replicate 5 "001"%byte;
     listen := Ok 4242 |}.

(** The reading of the spec under which a failed address discovery
    ends the process before anything is served: a trace that carries
    the failure message has not started [server.Serve]. *)
Definition aborts_before_serving : Prop :=
  ∀ (env : Env) (ls : list Server.label) (e : string),
    ELog ("failed to get outbound ip: " +:+ e) ∈ main env ls →
    count is_serve (main env ls) = 0.

(** ** Further invariants of a run *)

(** How far a handler has got, as a number that grows with every
    step. *)
Definition handler_rank (h : handler_frame) : nat :=
  match hpc h with
  | HGet => pc_rank (gpc (call h))
  | HIfNil => 7
  | HNotFound | HSetHeader => 8
  | HWrite => 9
  | HClose => 10
  | HReturn | HPanic => 11
  end.

Definition handlers_work (hs : list handler_frame) : nat :=
  foldr (λ h n, handler_rank h + n) 0 hs.

Definition is_request (l : Server.label) : bool :=
  match l with
  | Server.LRequest => true
  | _ => false
  end.

(** What a run keeps of the state [s0] it started from, and what [main]
    knows at each statement. *)
Record run_inv (s0 s : Server.t) : Prop := mkRunInv {
  ri_path : Server.path s = Server.path s0;
  ri_port : Server.port s = Server.port s0;
  ri_notified :
    match Server.pc s with
    | MSelect | MShutdown _ | MWait _ | MLog _ => Server.notified s = true
    | _ => True
    end;
  ri_delivered :
    match Server.pc s with
    | MShutdown Delivered | MWait Delivered => Server.done s = true
    | _ => True
    end;
  ri_last :
    Server.alive s = true →
    ∀ code, last (Server.trace s) ≠ Some (EExit code);
  ri_display :
    List.filter is_display (Server.trace s) = [] ∨
    ∃ ip,
      List.filter is_display (Server.trace s)
      = [EPrintln ("Serving note at: " +:+ Server.url ip s0);
         EQR (Server.url ip s0)];
  ri_display0 :
    main_rank (Server.pc s) ≤ 2 →
    List.filter is_display (Server.trace s) = [];
}.

(** The arguments [qreph "" ""] on a terminal. *)
Definition env_two_empty : Env :=
  {| stdin_stat := Ok ModeCharDevice;
     stdin_data := Ok [];
     args := ["qreph"; ""; ""];
     entropy := replicate 32 "001"%byte;
     listen := Ok 4242 |}.

(** The listener cannot be bound. *)
Definition env_no_listener : Env :=
  {| stdin_stat := Ok 0%Z;
     stdin_data := Ok hello;
     args := ["qreph"];
     entropy := replicate 32 "001"%byte;
     listen := Err "address already in use" |}.

(** One request, served to the end. *)
Definition deliver_hello : list Server.label :=
  [Server.LMain; Server.LRequest] ++ replicate 11 (Server.LHandler 0).

(** A second request, also served to the end. *)
Definition late_hello : list Server.label :=
  Server.LRequest :: replicate 6 (Server.LHandler 1).

(** The address is found and [main] gets to the [select]. *)
Definition to_select_hello : list Server.label :=
  [Server.LDial (Ok (UDPAddr "192.0.2.7")); Server.LMain; Server.LMain].

(** The call that has locked a fresh store is on its way to the
    payload, or has it. *)
Definition leading (s : noteStore) (f : get_frame) : Prop :=
  (once s = false ∧
   (gpc f = GOnce ∨ gpc f = GRead ∨ gpc f = GClear ∨ gpc f = GSetDone)) ∨
  winner f = true.

(** An effect other than the construction of the store. *)
Definition not_new_store (e : effect) : Prop :=
  match e with
  | ENewStore _ => False
  | _ => True
  end.

(* ================================================================= *)
(** * Verification *)

(** ** Slices *)


Lemma len_pos_not_nil (b : Slice.t) : 0 < Slice.len b → Slice.is_nil b = false.
Proof. destruct b; simpl; [done|lia]. Qed.

Lemma b2n_le_1 (b : bool) : Nat.b2n b ≤ 1.
Proof. destruct b; simpl; lia. Qed.

(** ** Counting in a list that is updated in place *)

Section Count.
Context {A : Type} (p : A → bool).

Lemma count_insert (l : list A) (i : nat) (x y : A) :
  l !! i = Some x →
  count p (<[i := y]> l) + Nat.b2n (p x) = count p l + Nat.b2n (p y).
Proof.
  revert i. induction l as [|a l IH]; intros [|i] Hi; simplify_eq/=.
  - destruct (p x), (p y); simpl; lia.
  - specialize (IH _ Hi). destruct (p a); lia.
Qed.

Lemma count_app (l k : list A) : count p (l ++ k) = count p l + count p k.
Proof. induction l as [|a l IH]; simpl; [done|]. rewrite IH. lia. Qed.

Lemma count_zero_lookup (l : list A) (i : nat) (x : A) :
  count p l = 0 → l !! i = Some x → p x = false.
Proof.
  revert i. induction l as [|a l IH]; intros [|i] Hc Hi; simplify_eq/=.
  - destruct (p x); [lia|done].
  - apply (IH i); [|done]. destruct (p a); lia.
Qed.

Lemma count_unique (l : list A) (i j : nat) (x y : A) :
  count p l ≤ 1 →
  l !! i = Some x → p x = true → l !! j = Some y → p y = true → i = j.
Proof.
  revert i j. induction l as [|a l IH]; intros [|i] [|j] Hc Hi Hx Hj Hy;
    simplify_eq/=; try done.
  - rewrite Hx in Hc.
    assert (count p l = 0) as H0 by lia.
    by rewrite (count_zero_lookup _ _ _ H0 Hj) in Hy.
  - rewrite Hy in Hc.
    assert (count p l = 0) as H0 by lia.
    by rewrite (count_zero_lookup _ _ _ H0 Hi) in Hx.
  - f_equal. apply IH; try done. destruct (p a); lia.
Qed.

Lemma count_pos_lookup (l : list A) :
  0 < count p l → ∃ i x, l !! i = Some x ∧ p x = true.
Proof.
  induction l as [|a l IH]; simpl; [lia|].
  destruct (p a) eqn:Ha.
  - intros _. by exists 0, a.
  - intros H. destruct IH as (i & x & Hi & Hx); [lia|]. by exists (S i), x.
Qed.

Lemma count_replicate (n : nat) (x : A) :
  p x = false → count p (replicate n x) = 0.
Proof. intros Hx. induction n as [|n IH]; simpl; [done|]. by rewrite Hx. Qed.
End Count.

Lemma Forall_insert_others {A : Type} (P Q : A → Prop) (l : list A)
    (i : nat) (y : A) :
  Forall P l → Q y →
  (∀ j x, j ≠ i → l !! j = Some x → P x → Q x) →
  Forall Q (<[i := y]> l).
Proof.
  intros HP Hy Hothers. apply Forall_lookup. intros j x Hj.
  apply list_lookup_insert_Some in Hj as [(-> & -> & _)|[Hne Hj]]; [done|].
  apply (Hothers j); [done..|]. by eapply (proj1 (Forall_lookup _ _)).
Qed.

(** ** The invariant holds in every reachable state *)

Ltac frame_simpl :=
  cbn [holds winner returned goto gpc local Nat.b2n negb Slice.is_nil
       Slice.nil set_mu set_once set_content content once mu
       Pool.store Pool.frames] in *.


Section PoolInvariant.
Variable c : Slice.t.
Hypothesis c_not_nil : Slice.is_nil c = false.

Lemma pool_inv_init (n : nat) : pool_inv c (Pool.init c n).
Proof.
  split; simpl; try done.
  - by apply Forall_replicate.
  - by apply count_replicate.
  - by apply count_replicate.
Qed.

(** A call that is neither waiting for the mutex nor inside it only
    looks at the flag of the [Once]. *)
Lemma frame_inv_outside (s s' : noteStore) (g : get_frame) :
  holds g = false → (once s = true → once s' = true) →
  frame_inv c s g → frame_inv c s' g.
Proof.
  unfold frame_inv, holds.
  destruct (gpc g); intros Hh Ho Hg; try done.
  destruct Hg as [Hg1 Hg2]. auto.
Qed.

(** Mutual exclusion: at most one call is between [Lock] and
    [Unlock]. *)
Lemma holder_unique (p : Pool.t) (i j : nat) (f g : get_frame) :
  pool_inv c p →
  Pool.frames p !! i = Some f → holds f = true →
  Pool.frames p !! j = Some g → holds g = true → i = j.
Proof.
  intros Hinv Hi Hf Hj Hg. eapply (count_unique holds); eauto.
  rewrite (inv_mutex _ _ Hinv). apply b2n_le_1.
Qed.

Lemma holder_locked (p : Pool.t) (i : nat) (f : get_frame) :
  pool_inv c p → Pool.frames p !! i = Some f → holds f = true →
  mu (Pool.store p) = true.
Proof.
  intros Hinv Hi Hf. destruct (mu (Pool.store p)) eqn:Hmu; [done|].
  pose proof (inv_mutex _ _ Hinv) as Hc. rewrite Hmu in Hc.
  by rewrite (count_zero_lookup _ _ _ _ Hc Hi) in Hf.
Qed.

Lemma pool_inv_step (p p' : Pool.t) (i : nat) :
  pool_inv c p → Pool.step i p = Some p' → pool_inv c p'.
Proof.
  intros Hinv Hstep. unfold Pool.step in Hstep.
  destruct (Pool.frames p !! i) as [f|] eqn:Hi; simplify_eq/=.
  destruct (get_step (Pool.store p) f) as [[s' f']|] eqn:Hget; simplify_eq/=.
  pose proof (inv_frames _ _ Hinv) as Hfr.
  pose proof (proj1 (Forall_lookup _ _) Hfr _ _ Hi) as Hf.
  pose proof (count_insert holds _ _ _ f' Hi) as Hch.
  pose proof (count_insert winner _ _ _ f' Hi) as Hcw.
  pose proof (inv_mutex _ _ Hinv) as Hmx.
  pose proof (inv_winner _ _ Hinv) as Hwn.
  pose proof (inv_released _ _ Hinv) as Hrel.
  pose proof (inv_loaded _ _ Hinv) as Hld.
  assert (holds f = true → mu (Pool.store p) = true) as Hlocked
    by (by apply holder_locked with i).
  assert (holds f = true → ∀ j g, j ≠ i →
          Pool.frames p !! j = Some g → holds g = false) as Hothers.
  { intros Hh j g Hne Hj. destruct (holds g) eqn:Hg; [|done].
    destruct Hne. by eapply holder_unique. }
  destruct p as [s fs], f as [pc l].
  unfold get_step in Hget. unfold frame_inv in Hf.
  destruct pc; frame_simpl.
  - (* Lock *)
    destruct (mu s) eqn:Hmu; simplify_eq/=. frame_simpl.
    split; frame_simpl; [|lia|lia|done|done].
    eapply Forall_insert_others; [done| |by intros].
    unfold frame_inv; frame_simpl. auto.
  - (* the Once tests its flag *)
    destruct Hf as [-> Hc].
    destruct (once s) eqn:Ho; simplify_eq/=; frame_simpl.
    + pose proof (Hlocked eq_refl) as Hmu; rewrite Hmu in Hmx.
      split; frame_simpl; rewrite ?Hmu, ?Ho; frame_simpl; [|lia|lia|done|done].
      eapply Forall_insert_others; [done| |by intros].
      unfold frame_inv; frame_simpl. auto.
    + pose proof (Hlocked eq_refl) as Hmu; rewrite Hmu in Hmx.
      split; frame_simpl; rewrite ?Hmu, ?Ho; frame_simpl; [|lia|lia|done|done].
      eapply Forall_insert_others; [done| |by intros].
      unfold frame_inv; frame_simpl. auto.
  - (* content = s.content *)
    simplify_eq/=. destruct Hf as (-> & Ho & Hc). frame_simpl.
    pose proof (Hlocked eq_refl) as Hmu; rewrite Hmu in Hmx. rewrite Ho in *.
    split; frame_simpl; rewrite ?Hmu, ?Ho; frame_simpl; [|lia|lia|done|done].
    eapply Forall_insert_others; [done| |by intros].
    unfold frame_inv; frame_simpl. auto.
  - (* s.content = nil *)
    simplify_eq/=. destruct Hf as (-> & Ho & Hc). frame_simpl.
    pose proof (Hlocked eq_refl) as Hmu; rewrite Hmu in Hmx. rewrite Ho in *.
    split; frame_simpl; rewrite ?Hmu, ?Ho; frame_simpl; [|lia|lia|done|done].
    eapply Forall_insert_others; [done| |].
    + unfold frame_inv; frame_simpl. auto.
    + intros j g Hne Hj Hg.
      apply (frame_inv_outside s); [by eapply Hothers|done|done].
  - (* the Once sets its flag *)
    simplify_eq/=. destruct Hf as (-> & Ho & Hc). frame_simpl.
    pose proof (Hlocked eq_refl) as Hmu; rewrite Hmu in Hmx. rewrite Ho in *. rewrite c_not_nil in *.
    frame_simpl.
    split; frame_simpl; rewrite ?Hmu; frame_simpl; [|lia|lia|done|done].
    eapply Forall_insert_others; [done| |].
    + unfold frame_inv; frame_simpl. auto.
    + intros j g Hne Hj Hg.
      apply (frame_inv_outside s); [by eapply Hothers|done|done].
  - (* Unlock *)
    simplify_eq/=. destruct Hf as (Ho & Hl). frame_simpl.
    pose proof (Hlocked eq_refl) as Hmu; rewrite Hmu in Hmx. rewrite Ho in *.
    split; frame_simpl; rewrite ?Hmu, ?Ho; frame_simpl; [|lia|lia|done|done].
    eapply Forall_insert_others; [done| |by intros].
    unfold frame_inv; frame_simpl. auto.
  - done.
Qed.

Lemma pool_inv_exec (sched : list nat) (p : Pool.t) :
  pool_inv c p → pool_inv c (Pool.exec sched p).
Proof.
  revert p. induction sched as [|i sched IH]; intros p Hinv; [done|].
  apply IH. destruct (Pool.step i p) as [p'|] eqn:Hstep; simpl; [|done].
  by eapply pool_inv_step.
Qed.
End PoolInvariant.

(** ** The two readings of [get] agree *)

(** A call that runs alone takes six steps and returns what [get]
    returns: the statement-by-statement machine refines the function. *)
Lemma get_run_get (s : noteStore) :
  get s =
    if mu s then None
    else Some (local (get_run 6 s frame0).2, (get_run 6 s frame0).1).
Proof. destruct s as [c [] []]; reflexivity. Qed.

Lemma get_run_returns (s : noteStore) :
  mu s = false → gpc (get_run 6 s frame0).2 = GRet.
Proof. destruct s as [c [] []]; simpl; done. Qed.

(** A blocked call stays where it is, however long it is offered
    steps. *)
Lemma get_run_blocked (n : nat) (s : noteStore) :
  mu s = true → get_run n s frame0 = (s, frame0).
Proof.
  intros Hmu. destruct n; [done|].
  cbn [get_run]. unfold get_step. cbn [frame0 gpc]. by rewrite Hmu.
Qed.

(** ** Progress of the pool *)

Lemma get_step_rank (s s' : noteStore) (f f' : get_frame) :
  get_step s f = Some (s', f') → pc_rank (gpc f) < pc_rank (gpc f').
Proof.
  unfold get_step. destruct f as [[] l]; simpl; intros H;
    repeat case_match; simplify_eq/=; lia.
Qed.

Lemma progress_insert (l : list get_frame) (i : nat) (f f' : get_frame) :
  l !! i = Some f →
  Pool.progress (Pool.mk (newNoteStore None) (<[i := f']> l)) + pc_rank (gpc f)
  = Pool.progress (Pool.mk (newNoteStore None) l) + pc_rank (gpc f').
Proof.
  unfold Pool.progress; simpl.
  revert i. induction l as [|a l IH]; intros [|i] Hi; simplify_eq/=; [lia|].
  specialize (IH _ Hi). lia.
Qed.

Lemma progress_bound (p : Pool.t) :
  Pool.progress p ≤ 6 * length (Pool.frames p).
Proof.
  unfold Pool.progress. induction (Pool.frames p) as [|a l IH]; simpl; [lia|].
  destruct a as [[] ?]; simpl; lia.
Qed.

Lemma step_length (p p' : Pool.t) (i : nat) :
  Pool.step i p = Some p' →
  length (Pool.frames p') = length (Pool.frames p).
Proof.
  unfold Pool.step. intros H.
  destruct (Pool.frames p !! i) as [f|]; simplify_eq/=.
  destruct (get_step _ _) as [[??]|]; simplify_eq/=.
  by rewrite length_insert.
Qed.

Lemma step_progress (p p' : Pool.t) (i : nat) :
  Pool.step i p = Some p' → Pool.progress p < Pool.progress p'.
Proof.
  unfold Pool.step. intros H.
  destruct (Pool.frames p !! i) as [f|] eqn:Hi; simplify_eq/=.
  destruct (get_step _ _) as [[s' f']|] eqn:Hg; simplify_eq/=.
  pose proof (get_step_rank _ _ _ _ Hg).
  pose proof (progress_insert _ _ _ f' Hi) as Hp.
  unfold Pool.progress in *; simpl in *. lia.
Qed.

Lemma exec_length (sched : list nat) (p : Pool.t) :
  length (Pool.frames (Pool.exec sched p)) = length (Pool.frames p).
Proof.
  revert p. induction sched as [|i sched IH]; intros p; [done|].
  change (Pool.exec (i :: sched) p)
    with (Pool.exec sched (default p (Pool.step i p))).
  rewrite IH.
  destruct (Pool.step i p) eqn:Hs; simpl; [|done]. by eapply step_length.
Qed.

Lemma exec_app (s1 s2 : list nat) (p : Pool.t) :
  Pool.exec (s1 ++ s2) p = Pool.exec s2 (Pool.exec s1 p).
Proof. unfold Pool.exec. by rewrite foldl_app. Qed.

Lemma not_all_returned (p : Pool.t) :
  Pool.all_returned p = false →
  ∃ i f, Pool.frames p !! i = Some f ∧ returned f = false.
Proof.
  unfold Pool.all_returned.
  induction (Pool.frames p) as [|a l IH]; simpl; [done|].
  destruct (returned a) eqn:Ha; simpl.
  - intros H. destruct (IH H) as (i & f & Hi & Hf). by exists (S i), f.
  - intros _. by exists 0, a.
Qed.

Lemma all_returned_lookup (p : Pool.t) (i : nat) (f : get_frame) :
  Pool.all_returned p = true → Pool.frames p !! i = Some f → gpc f = GRet.
Proof.
  unfold Pool.all_returned. rewrite forallb_forall. intros Hall Hi.
  assert (returned f = true) as Hr.
  { apply Hall. apply list_elem_of_In. by eapply list_elem_of_lookup_2. }
  unfold returned in Hr. by destruct (gpc f).
Qed.

Section PoolProgress.
Variable c : Slice.t.
Hypothesis c_not_nil : Slice.is_nil c = false.

(** No deadlock: while a call has not returned, some call can
    move. *)
Lemma deadlock_free (p : Pool.t) :
  pool_inv c p → Pool.all_returned p = false →
  ∃ i p', Pool.step i p = Some p'.
Proof.
  intros Hinv Hnot. destruct (mu (Pool.store p)) eqn:Hmu.
  - pose proof (inv_mutex _ _ Hinv) as Hc. rewrite Hmu in Hc.
    destruct (count_pos_lookup holds (Pool.frames p)) as (i & f & Hi & Hf);
      [simpl in Hc; lia|].
    exists i. unfold Pool.step. rewrite Hi. simpl.
    destruct f as [[] l]; try done; unfold get_step; simpl; eauto.
    destruct (once _); simpl; eauto.
  - destruct (not_all_returned _ Hnot) as (i & f & Hi & Hf).
    pose proof (inv_mutex _ _ Hinv) as Hc. rewrite Hmu in Hc.
    pose proof (count_zero_lookup _ _ _ _ Hc Hi) as Hh.
    exists i. unfold Pool.step. rewrite Hi. simpl.
    destruct f as [[] l]; try done. unfold get_step; simpl.
    rewrite Hmu. simpl. eauto.
Qed.

(** Every reachable state can be run to the end, in at most six
    steps per call. *)
Lemma pool_terminates (p : Pool.t) :
  pool_inv c p →
  ∃ sched,
    Pool.all_returned (Pool.exec sched p) = true ∧
    length sched + Pool.progress p ≤ 6 * length (Pool.frames p).
Proof.
  remember (6 * length (Pool.frames p) - Pool.progress p) as k eqn:Hk.
  revert p Hk. induction k as [k IH] using lt_wf_ind. intros p Hk Hinv.
  destruct (Pool.all_returned p) eqn:Hall.
  - exists []. split; [done|]. pose proof (progress_bound p). simpl. lia.
  - destruct (deadlock_free p Hinv Hall) as (i & p' & Hstep).
    pose proof (step_progress _ _ _ Hstep) as Hlt.
    pose proof (step_length _ _ _ Hstep) as Hlen.
    pose proof (progress_bound p').
    destruct (IH (6 * length (Pool.frames p') - Pool.progress p')) with p'
      as (sched & Hdone & Hbound); [lia|done|by eapply pool_inv_step|].
    exists (i :: sched). split.
    + simpl. unfold Pool.exec in Hdone. by rewrite Hstep.
    + simpl. lia.
Qed.
End PoolProgress.

(** ** What the calls return *)

Lemma results_lookup (p : Pool.t) (j : nat) (r : Slice.t) :
  Pool.results p !! j = Some (Some r) ↔
  Pool.frames p !! j = Some {| gpc := GRet; local := r |}.
Proof.
  unfold Pool.results. rewrite list_lookup_fmap.
  destruct (Pool.frames p !! j) as [[pc l]|]; simpl; [|done].
  unfold returned; simpl. destruct pc; split; intros H; by simplify_eq.
Qed.

Lemma winner_step (p p' : Pool.t) (i w : nat) (f : get_frame) :
  Pool.step i p = Some p' →
  Pool.frames p !! w = Some f → winner f = true →
  ∃ f', Pool.frames p' !! w = Some f' ∧ winner f' = true.
Proof.
  unfold Pool.step. intros Hstep Hw Hf.
  destruct (Pool.frames p !! i) as [g|] eqn:Hi; simplify_eq/=.
  destruct (get_step _ _) as [[s' g']|] eqn:Hg; simplify_eq/=.
  destruct (decide (i = w)) as [->|Hne].
  - assert (g = f) as -> by congruence.
    exists g'. rewrite list_lookup_insert_eq by by eapply lookup_lt_Some.
    split; [done|]. unfold get_step in Hg. destruct f as [[] l]; simplify_eq/=; done.
  - exists f. by rewrite list_lookup_insert_ne.
Qed.

Lemma winner_exec (sched : list nat) (p : Pool.t) (w : nat) (f : get_frame) :
  Pool.frames p !! w = Some f → winner f = true →
  ∃ f', Pool.frames (Pool.exec sched p) !! w = Some f' ∧ winner f' = true.
Proof.
  revert p f. induction sched as [|i sched IH]; intros p f Hw Hf; [by eauto|].
  change (Pool.exec (i :: sched) p)
    with (Pool.exec sched (default p (Pool.step i p))).
  destruct (Pool.step i p) as [p'|] eqn:Hstep; simpl; [|by eauto].
  destruct (winner_step _ _ _ _ _ Hstep Hw Hf) as (f' & Hw' & Hf'). by eauto.
Qed.

Section PoolResults.
Variable c : Slice.t.
Hypothesis c_not_nil : Slice.is_nil c = false.

Lemma frame_lookup_inv (p : Pool.t) (j : nat) (f : get_frame) :
  pool_inv c p → Pool.frames p !! j = Some f →
  frame_inv c (Pool.store p) f.
Proof.
  intros Hinv Hj. by eapply (proj1 (Forall_lookup _ _) (inv_frames _ _ Hinv)).
Qed.

(** A call returns nil or the payload, nothing else. *)
Lemma returned_payload (p : Pool.t) (j : nat) (r : Slice.t) :
  pool_inv c p → Pool.results p !! j = Some (Some r) →
  r = Slice.nil ∨ r = c.
Proof.
  intros Hinv Hj. apply results_lookup in Hj.
  by destruct (frame_lookup_inv _ _ _ Hinv Hj) as [_ ?].
Qed.

(** At no time have two calls returned the payload. *)
Lemma winner_unique (p : Pool.t) (i j : nat) (ri rj : Slice.t) :
  pool_inv c p →
  Pool.results p !! i = Some (Some ri) → Slice.is_nil ri = false →
  Pool.results p !! j = Some (Some rj) → Slice.is_nil rj = false →
  i = j.
Proof.
  intros Hinv Hi Hri Hj Hrj. apply results_lookup in Hi, Hj.
  eapply (count_unique winner); [|exact Hi| |exact Hj|].
  - rewrite (inv_winner _ _ Hinv). apply b2n_le_1.
  - unfold winner; simpl. by rewrite Hri.
  - unfold winner; simpl. by rewrite Hrj.
Qed.

(** When every call has returned, one of them holds the payload and
    all the others hold nil. *)
Lemma final_results (p : Pool.t) :
  pool_inv c p → Pool.all_returned p = true →
  0 < length (Pool.frames p) →
  ∃ w,
    Pool.results p !! w = Some (Some c) ∧
    ∀ j, j < length (Pool.frames p) → j ≠ w →
         Pool.results p !! j = Some (Some Slice.nil).
Proof.
  intros Hinv Hall Hlen.
  destruct (lookup_lt_is_Some_2 (Pool.frames p) 0 Hlen) as [f0 H0].
  pose proof (all_returned_lookup _ _ _ Hall H0) as Hpc0.
  pose proof (frame_lookup_inv _ _ _ Hinv H0) as Hf0.
  unfold frame_inv in Hf0. rewrite Hpc0 in Hf0. destruct Hf0 as [Ho _].
  pose proof (inv_winner _ _ Hinv) as Hw. rewrite Ho in Hw.
  destruct (count_pos_lookup winner (Pool.frames p)) as (w & f & Hfw & Hwin);
    [simpl in Hw; lia|].
  pose proof (all_returned_lookup _ _ _ Hall Hfw) as Hpcw.
  pose proof (frame_lookup_inv _ _ _ Hinv Hfw) as Hfi.
  destruct f as [pc l]; simpl in *; subst pc.
  unfold frame_inv in Hfi; simpl in Hfi. destruct Hfi as [_ [->| ->]];
    [by unfold winner in Hwin; simpl in Hwin|].
  exists w. split; [by apply results_lookup|].
  intros j Hj Hne.
  destruct (lookup_lt_is_Some_2 (Pool.frames p) j Hj) as [[pc l] Hfj].
  pose proof (all_returned_lookup _ _ _ Hall Hfj) as Hpcj.
  simpl in Hpcj; subst pc.
  apply results_lookup. rewrite Hfj. do 2 f_equal.
  destruct l as [l|]; [|done]. destruct Hne.
  eapply (count_unique winner); [|exact Hfj|reflexivity|exact Hfw|exact Hwin].
  rewrite Hw. lia.
Qed.

(** Once the payload is released, a call that is not the winner never
    returns it. *)
Lemma released_stays_released (sched : list nat) (p : Pool.t)
    (j : nat) (f : get_frame) (r : Slice.t) :
  pool_inv c p → once (Pool.store p) = true →
  Pool.frames p !! j = Some f → winner f = false →
  Pool.results (Pool.exec sched p) !! j = Some (Some r) →
  r = Slice.nil.
Proof.
  intros Hinv Ho Hj Hf Hr.
  pose proof (inv_winner _ _ Hinv) as Hw. rewrite Ho in Hw.
  destruct (count_pos_lookup winner (Pool.frames p)) as (w & g & Hgw & Hwin);
    [simpl in Hw; lia|].
  destruct (winner_exec sched _ _ _ Hgw Hwin) as (g' & Hgw' & Hwin').
  pose proof (pool_inv_exec c c_not_nil sched _ Hinv) as Hinv'.
  apply results_lookup in Hr.
  destruct r as [l|]; [|done]. exfalso.
  assert (j = w) as ->.
  { eapply (count_unique winner); [|exact Hr|reflexivity|exact Hgw'|exact Hwin'].
    rewrite (inv_winner _ _ Hinv'). apply b2n_le_1. }
  congruence.
Qed.
End PoolResults.

(** ** The note store: the claims *)

(** [get], spelled out: a call that finds the [Once] unused takes the
    content and leaves nil, the flag set and the mutex free; any other
    call returns nil and leaves the store as it found it. *)
Lemma get_spec (s : noteStore) :
  get s =
    if mu s then None
    else if once s then Some (Slice.nil, s)
    else Some (content s, {| content := Slice.nil; once := true; mu := false |}).
Proof. destruct s as [c [] []]; reflexivity. Qed.

(** C3. For every non-empty byte sequence [P], a store built around [P]
    hands back exactly [P] to the first call of [get]: to the call run
    as a function, to the call run statement by statement, and to a
    single call under any schedule that lets it return. *)
Theorem get_first_returns_payload (P : list byte) (sched : list nat) :
  P ≠ [] →
  (∃ s', get (newNoteStore (Some P)) = Some (Some P, s')) ∧
  (get_run 6 (newNoteStore (Some P)) frame0).2
    = {| gpc := GRet; local := Some P |} ∧
  (Pool.all_returned (Pool.exec sched (Pool.init (Some P) 1)) = true →
   Pool.results (Pool.exec sched (Pool.init (Some P) 1)) !! 0
     = Some (Some (Some P))).
Proof.
  intros HP. split; [by eexists|]. split; [done|].
  intros Hall.
  pose proof (pool_inv_exec (Some P) eq_refl sched _
                (pool_inv_init (Some P) 1)) as Hinv.
  destruct (final_results (Some P) _ Hinv Hall) as (w & Hw & _).
  { rewrite exec_length. simpl. lia. }
  assert (w < 1) as Hlt.
  { apply results_lookup in Hw. apply lookup_lt_Some in Hw.
    by rewrite exec_length in Hw. }
  assert (w = 0) as -> by lia. exact Hw.
Qed.

Lemma get_first_returns_payload_witness :
  ["h"%byte; "i"%byte] ≠ [] ∧
  Pool.results (Pool.exec [0; 0; 0; 0; 0; 0]
                  (Pool.init (Some ["h"%byte; "i"%byte]) 1)) !! 0
    = Some (Some (Some ["h"%byte; "i"%byte])).
Proof.
  assert (["h"%byte; "i"%byte] ≠ []) as H by discriminate.
  split; [exact H|].
  apply (get_first_returns_payload _ [0; 0; 0; 0; 0; 0] H). reflexivity.
Defined.

(** C9. [get] clears [s.content] in the step that decides the winner:
    the winning call leaves nil in the field, sets the flag of the
    [Once] and returns the mutex as it was; a call that finds the flag
    set changes nothing.  Under concurrency the field is nil whenever a
    call has returned the payload, and while a call is between [Lock]
    and [Unlock], where it reads and clears the field, no other call can
    move. *)
Theorem get_releases_payload (s : noteStore) (c : Slice.t) (n : nat)
    (sched : list nat) :
  0 < Slice.len c →
  let p := Pool.exec sched (Pool.init c n) in
  get s =
    (if mu s then None
     else if once s then Some (Slice.nil, s)
     else Some (content s,
                {| content := Slice.nil; once := true; mu := mu s |})) ∧
  (∀ j r, Pool.results p !! j = Some (Some r) → Slice.is_nil r = false →
          content (Pool.store p) = Slice.nil) ∧
  (∀ i f, Pool.frames p !! i = Some f → holds f = true →
          ∀ j, j ≠ i → Pool.step j p = None).
Proof.
  intros Hc p. apply len_pos_not_nil in Hc.
  pose proof (pool_inv_exec c Hc sched _ (pool_inv_init c n)) as Hinv.
  fold p in Hinv. split; [|split].
  - rewrite get_spec. by destruct (mu s) eqn:Hmu.
  - intros j r Hj Hr. apply (inv_released _ _ Hinv).
    apply results_lookup in Hj.
    by destruct (frame_lookup_inv c _ _ _ Hinv Hj) as [? _].
  - intros i f Hi Hf j Hne. unfold Pool.step.
    destruct (Pool.frames p !! j) as [g|] eqn:Hj; [|done]. simpl.
    assert (holds g = false) as Hg.
    { destruct (holds g) eqn:Hg; [|done]. destruct Hne.
      by eapply (holder_unique c p j i). }
    pose proof (holder_locked c p i f Hinv Hi Hf) as Hmu.
    unfold get_step. destruct g as [[] l]; try done. simpl. by rewrite Hmu.
Qed.

Lemma get_releases_payload_witness :
  0 < Slice.len (Some ["h"%byte; "i"%byte]) ∧
  get (newNoteStore (Some ["h"%byte; "i"%byte]))
    = Some (Some ["h"%byte; "i"%byte],
            {| content := Slice.nil; once := true; mu := false |}).
Proof.
  assert (0 < Slice.len (Some ["h"%byte; "i"%byte])) as H by (simpl; lia).
  split; [exact H|].
  exact (proj1 (get_releases_payload
                  (newNoteStore (Some ["h"%byte; "i"%byte]))
                  (Some ["h"%byte; "i"%byte]) 2 [0; 1] H)).
Defined.

(** C1. For a store built around a non-empty payload and [n >= 2] calls
    of [get] under any schedule: at no time have two calls returned the
    payload; whatever a call returns is nil or the payload; when all
    calls have returned, exactly one holds the payload and the other
    [n - 1] hold nil; the calls can always all return (no schedule
    leads into a deadlock, and no run is longer than six steps per
    call); and once the store is released, every call that had not
    started then returns nil. *)
Theorem get_exactly_one_winner (c : Slice.t) (n : nat) (sched : list nat) :
  0 < Slice.len c → 2 ≤ n →
  let p := Pool.exec sched (Pool.init c n) in
  (∀ i j ri rj,
     Pool.results p !! i = Some (Some ri) → Slice.is_nil ri = false →
     Pool.results p !! j = Some (Some rj) → Slice.is_nil rj = false →
     i = j) ∧
  (∀ j r, Pool.results p !! j = Some (Some r) → r = Slice.nil ∨ r = c) ∧
  (Pool.all_returned p = true →
   ∃ w, w < n ∧
     Pool.results p !! w = Some (Some c) ∧
     ∀ j, j < n → j ≠ w → Pool.results p !! j = Some (Some Slice.nil)) ∧
  (∃ more,
     Pool.all_returned (Pool.exec (sched ++ more) (Pool.init c n)) = true ∧
     length more ≤ 6 * n) ∧
  (Pool.all_returned p = false → ∃ i p', Pool.step i p = Some p') ∧
  (once (Pool.store p) = true →
   ∀ j more r,
     Pool.frames p !! j = Some frame0 →
     Pool.results (Pool.exec more p) !! j = Some (Some r) →
     r = Slice.nil).
Proof.
  intros Hc Hn p. apply len_pos_not_nil in Hc.
  pose proof (pool_inv_exec c Hc sched _ (pool_inv_init c n)) as Hinv.
  fold p in Hinv.
  assert (length (Pool.frames p) = n) as Hlen.
  { unfold p. rewrite exec_length. simpl. by rewrite length_replicate. }
  repeat split.
  - intros i j ri rj. by apply winner_unique with c.
  - intros j r. by apply returned_payload.
  - intros Hall.
    destruct (final_results c p Hinv Hall) as (w & Hw & Hothers); [lia|].
    exists w. rewrite Hlen in Hothers. split; [|done].
    apply results_lookup in Hw. apply lookup_lt_Some in Hw. lia.
  - destruct (pool_terminates c Hc p Hinv) as (more & Hdone & Hbound).
    exists more. rewrite exec_app. split; [done|]. lia.
  - by apply deadlock_free with c.
  - intros Ho j more r Hj Hr.
    by eapply (released_stays_released c Hc more p j frame0).
Qed.

Lemma get_exactly_one_winner_witness :
  0 < Slice.len (Some ["h"%byte; "i"%byte]) ∧ 2 ≤ 2 ∧
  ∃ w, w < 2 ∧
    Pool.results
      (Pool.exec [0; 1; 0; 1; 0; 0; 0; 0; 1; 1; 1]
         (Pool.init (Some ["h"%byte; "i"%byte]) 2)) !! w
    = Some (Some (Some ["h"%byte; "i"%byte])).
Proof.
  assert (0 < Slice.len (Some ["h"%byte; "i"%byte])) as H1 by (simpl; lia).
  assert (2 ≤ 2) as H2 by lia.
  split; [exact H1|]. split; [exact H2|].
  destruct (get_exactly_one_winner (Some ["h"%byte; "i"%byte]) 2
              [0; 1; 0; 1; 0; 0; 0; 0; 1; 1; 1] H1 H2)
    as (_ & _ & Hfinal & _).
  destruct (Hfinal eq_refl) as (w & Hw & Hres & _).
  exists w. split; [exact Hw|exact Hres].
Defined.

(** ** The handler: function and machine agree *)

(** A handler that runs alone needs at most eleven steps, and ends
    where the function [handler] says. *)
Lemma handler_run_handler (s : noteStore) (d : bool) :
  mu s = false →
  ∃ r h,
    handler s d = Some r ∧
    handler_run 11 s d handler0 = (h_store r, h_done r, h) ∧
    resp h = h_response r ∧
    finished h = true ∧
    hpc h = (if h_panicked r then HPanic else HReturn).
Proof.
  intros Hmu. destruct s as [[l|] [] []], d; simplify_eq/=;
    eexists _, _; (split; [reflexivity|]); simpl; done.
Qed.

(** ** The invariant of the server *)

Lemma pool_inv_spawn (c : Slice.t) (s : noteStore) (fs : list get_frame) :
  pool_inv c (Pool.mk s fs) → pool_inv c (Pool.mk s (fs ++ [frame0])).
Proof.
  intros [Hfr Hmx Hwn Hrel Hld]; simpl in *. split; simpl; try done.
  - apply Forall_app. split; [done|]. by apply Forall_singleton.
  - rewrite count_app. cbn [count frame0 holds gpc]. lia.
  - rewrite count_app. cbn [count frame0 winner gpc]. lia.
Qed.

Lemma fmap_insert_same {A B : Type} (f : A → B) (l : list A) (i : nat)
    (x y : A) :
  l !! i = Some x → f y = f x → f <$> <[i := y]> l = f <$> l.
Proof.
  intros Hi Hf. rewrite list_fmap_insert, Hf.
  apply list_insert_id. by rewrite list_lookup_fmap, Hi.
Qed.

Lemma filter_shutdown_app (l k : list effect) :
  List.filter is_shutdown (l ++ k)
  = List.filter is_shutdown l ++ List.filter is_shutdown k.
Proof. apply List.filter_app. Qed.

Lemma srv_inv_init (c : Slice.t) (path : string) (port : nat)
    (tr : list effect) :
  Forall (λ e, late e = false) tr →
  srv_inv c (Server.init c path port tr).
Proof.
  intros Htr. split; simpl.
  - apply (pool_inv_init c 0).
  - done.
  - done.
  - done.
  - lia.
  - split; [lia|done].
  - unfold Server.shutdown_calls; simpl.
    induction Htr as [|e tr He _ IH]; simpl; [done|].
    by destruct e.
  - done.
  - done.
  - intros _. induction Htr as [|e tr He _ IH]; simpl; [done|].
    by destruct e.
Qed.

Ltac srv_simpl :=
  cbn [Server.store Server.path Server.port Server.handlers Server.done
       Server.stop Server.notified Server.accepting Server.pc Server.trace
       Server.closes Server.received Server.set_pc Server.emit
       Server.set_accepting Server.set_notified Server.set_stop
       Server.receive Server.set_handlers Server.die main_rank] in *.

(** Steps that leave the store, the handlers and [done] alone. *)
Lemma srv_inv_frame (c : Slice.t) (s s' : Server.t) :
  srv_inv c s →
  Server.store s' = Server.store s →
  Server.handlers s' = Server.handlers s →
  Server.done s' = Server.done s →
  Server.closes s' = Server.closes s →
  length (Server.stop s') ≤ 1 →
  (length (Server.received s') ≤ 1 ∧
   (main_rank (Server.pc s') ≤ 4 → Server.received s' = [])) →
  Server.shutdown_calls s' =
    match Server.pc s' with
    | MWait _ | MLog _ | MExit 0 => [EShutdown shutdownTimeout]
    | _ => []
    end →
  match Server.pc s' with
  | MGo | MWait _ | MLog _ | MExit 0 => Server.accepting s' = false
  | MExit _ => True
  | _ => Server.accepting s' = true
  end →
  (∀ code, Server.pc s' = MExit code →
           last (Server.trace s') = Some (EExit code) ∧ (code = 0 ∨ code = 1)) →
  (main_rank (Server.pc s') ≤ 2 → count is_display (Server.trace s') = 0) →
  srv_inv c s'.
Proof.
  intros Hinv Hs Hh Hd Hc Hstop Hrecv Hshut Hacc Hexit Hdisp.
  destruct Hinv. split; try done; rewrite ?Hs, ?Hh, ?Hd, ?Hc; done.
Qed.

Ltac srv_frame Hinv Hpc :=
  pose proof (si_stop _ _ Hinv) as Hstop;
  pose proof (si_received _ _ Hinv) as Hrecv;
  pose proof (si_shutdown _ _ Hinv) as Hshut;
  pose proof (si_accepting _ _ Hinv) as Hacc;
  pose proof (si_exit _ _ Hinv) as Hexit;
  pose proof (si_display _ _ Hinv) as Hdisp;
  unfold Server.shutdown_calls in Hshut;
  rewrite Hpc in Hrecv, Hshut, Hacc, Hexit, Hdisp;
  eapply srv_inv_frame; [exact Hinv|..];
  unfold Server.shutdown_calls; srv_simpl;
  rewrite ?filter_shutdown_app, ?count_app, ?last_app, ?Hshut;
  cbn [List.filter is_shutdown count is_display last app fatal].

Ltac srv_close :=
  try done;
  try (intros; simplify_eq; by auto);
  try lia;
  try (match goal with
       | H : _ ∧ (_ → Server.received _ = []) |- _ =>
           destruct H as [? ?]; split; [done|intros; try lia; auto with lia]
       end).

Lemma srv_inv_main_step (c : Slice.t) (s s' : Server.t) :
  srv_inv c s → Server.main_step s = Some s' → srv_inv c s'.
Proof.
  intros Hinv Hstep. unfold Server.main_step in Hstep.
  destruct (Server.pc s) eqn:Hpc; simplify_eq; srv_frame Hinv Hpc; srv_close.
Qed.

Lemma srv_inv_dial (c : Slice.t) (s s' : Server.t) (r : result Addr) :
  srv_inv c s → Server.step (Server.LDial r) s = Some s' → srv_inv c s'.
Proof.
  intros Hinv Hstep. unfold Server.step in Hstep.
  destruct (Server.alive s); [|done].
  destruct (Server.pc s) eqn:Hpc; try done.
  destruct (getOutboundIP r); simplify_eq; srv_frame Hinv Hpc; srv_close.
Qed.

Lemma srv_inv_select (c : Slice.t) (s s' : Server.t) (k : select_case) :
  srv_inv c s → Server.step (Server.LSelect k) s = Some s' → srv_inv c s'.
Proof.
  intros Hinv Hstep. unfold Server.step in Hstep.
  destruct (Server.alive s); [|done].
  destruct k, (Server.pc s) eqn:Hpc; try done.
  - destruct (Server.done s); simplify_eq; srv_frame Hinv Hpc; srv_close.
  - destruct (Server.stop s) as [|sig q] eqn:Hq; simplify_eq.
    srv_frame Hinv Hpc; srv_close.
    + rewrite Hq in Hstop. simpl in Hstop. lia.
    + destruct Hrecv as [_ Hr]. rewrite Hr by lia. simpl. split; [lia|].
      intros; lia.
Qed.

Lemma srv_inv_shutdown_returns (c : Slice.t) (s s' : Server.t)
    (err : option string) :
  srv_inv c s → Server.step (Server.LShutdownReturns err) s = Some s' →
  srv_inv c s'.
Proof.
  intros Hinv Hstep. unfold Server.step in Hstep.
  destruct (Server.alive s); [|done].
  destruct (Server.pc s) eqn:Hpc, err; try done.
  - simplify_eq; srv_frame Hinv Hpc; srv_close.
  - destruct (forallb _ _); simplify_eq; srv_frame Hinv Hpc; srv_close.
Qed.

Lemma srv_inv_serve_fails (c : Slice.t) (s s' : Server.t) (err : string) :
  srv_inv c s → Server.step (Server.LServeFails err) s = Some s' →
  srv_inv c s'.
Proof.
  intros Hinv Hstep. unfold Server.step in Hstep.
  destruct (Server.alive s); [|done].
  destruct (Server.accepting s) eqn:Ha; [|done]. simplify_eq.
  pose proof (si_shutdown _ _ Hinv) as Hshut.
  pose proof (si_accepting _ _ Hinv) as Hacc.
  pose proof (si_stop _ _ Hinv) as Hstop.
  pose proof (si_received _ _ Hinv) as [Hr _].
  assert (Server.shutdown_calls s = []) as Hnone.
  { rewrite Hshut. destruct (Server.pc s) as [| | | | | | | |[|?]]; try done;
      congruence. }
  unfold Server.shutdown_calls in Hnone.
  eapply srv_inv_frame; [exact Hinv|..];
    unfold Server.shutdown_calls; srv_simpl;
    rewrite ?filter_shutdown_app, ?count_app, ?last_app, ?Hnone;
    cbn [List.filter is_shutdown count is_display last app fatal];
    srv_close.
Qed.

Lemma srv_inv_signal (c : Slice.t) (s s' : Server.t) (sig : signal) :
  srv_inv c s → Server.step (Server.LSignal sig) s = Some s' → srv_inv c s'.
Proof.
  intros Hinv Hstep. unfold Server.step in Hstep.
  destruct (Server.alive s); [|done].
  destruct (Server.notified s); [|done].
  destruct (length (Server.stop s) <? 1) eqn:Hlen; simplify_eq; [|done].
  apply Nat.ltb_lt in Hlen.
  destruct Hinv. split; srv_simpl; try done.
  rewrite length_app. simpl. lia.
Qed.

Lemma srv_inv_request (c : Slice.t) (s s' : Server.t) :
  srv_inv c s → Server.step Server.LRequest s = Some s' → srv_inv c s'.
Proof.
  intros Hinv Hstep. unfold Server.step in Hstep.
  destruct (Server.alive s); [|done].
  destruct (Server.accepting s); [|done]. simplify_eq.
  destruct Hinv. split; srv_simpl; try done.
  - rewrite fmap_app. by apply pool_inv_spawn.
  - apply Forall_app. split; [done|]. by apply Forall_singleton.
  - rewrite count_app. cbn [count handler0 delivered hpc]. lia.
Qed.

(** A handler that is about to close [done] finds it open: the only
    handlers that get this far hold the payload, and at most one call of
    [get] returns it. *)
Lemma close_finds_open (c : Slice.t) (s : Server.t) (i : nat)
    (h : handler_frame) :
  Slice.is_nil c = false → srv_inv c s →
  Server.handlers s !! i = Some h → hpc h = HClose →
  Server.done s = false.
Proof.
  intros Hc Hinv Hi Hpc.
  destruct (Server.done s) eqn:Hd; [exfalso|done].
  pose proof (si_delivered _ _ Hinv) as Hcount. rewrite Hd in Hcount.
  destruct (count_pos_lookup delivered (Server.handlers s))
    as (j & hj & Hj & Hdel); [simpl in Hcount; lia|].
  pose proof (proj1 (Forall_lookup _ _) (si_handlers _ _ Hinv)) as Hall.
  pose proof (Hall _ _ Hi) as Hhi. pose proof (Hall _ _ Hj) as Hhj.
  unfold handler_inv in Hhi, Hhj. rewrite Hpc in Hhi.
  unfold delivered in Hdel.
  destruct (hpc hj) eqn:Hpcj; try done.
  destruct Hhi as (Hgi & Hni & Hnc & _). destruct Hhj as (Hgj & Hnj & _).
  assert (i = j) as ->.
  { eapply (count_unique winner (call <$> Server.handlers s)).
    - pose proof (inv_winner _ _ (si_pool _ _ Hinv)) as Hw. simpl in Hw.
      rewrite Hw. apply b2n_le_1.
    - by rewrite list_lookup_fmap, Hi.
    - unfold winner. rewrite Hgi, <- Hni, Hnc, Hc. done.
    - by rewrite list_lookup_fmap, Hj.
    - unfold winner. rewrite Hgj, <- Hnj. done. }
  congruence.
Qed.

Lemma srv_inv_handlers_update (c : Slice.t) (s : Server.t) (i : nat)
    (h h' : handler_frame) (st : noteStore) (d : bool) (n : nat) :
  srv_inv c s → Server.handlers s !! i = Some h →
  pool_inv c (Pool.mk st (call <$> <[i := h']> (Server.handlers s))) →
  handler_inv c h' →
  Nat.b2n (delivered h') + Nat.b2n (Server.done s)
    = Nat.b2n d + Nat.b2n (delivered h) →
  n + Nat.b2n (Server.done s) = Nat.b2n d →
  srv_inv c
    (Server.mk st (Server.path s) (Server.port s)
       (<[i := h']> (Server.handlers s)) d (Server.stop s)
       (Server.notified s) (Server.accepting s) (Server.pc s)
       (Server.trace s) (Server.closes s + n) (Server.received s)).
Proof.
  intros Hinv Hi Hpool Hh' Hdel Hcl.
  pose proof (count_insert delivered _ _ _ h' Hi) as Hcount.
  destruct Hinv. split; srv_simpl; try done.
  - by apply Forall_insert.
  - lia.
  - lia.
Qed.

Lemma srv_inv_handler (c : Slice.t) (s s' : Server.t) (i : nat) :
  Slice.is_nil c = false →
  srv_inv c s → Server.handler_move i s = Some s' → srv_inv c s'.
Proof.
  intros Hc Hinv Hstep. unfold Server.handler_move in Hstep.
  destruct (Server.handlers s !! i) as [h|] eqn:Hi; simplify_eq/=.
  destruct (handler_step _ _ h) as [[[st d] h']|] eqn:Hh; simplify_eq/=.
  pose proof (proj1 (Forall_lookup _ _) (si_handlers _ _ Hinv) _ _ Hi) as Hhi.
  pose proof (si_pool _ _ Hinv) as Hpool.
  assert (Pool.frames (Pool.mk (Server.store s) (call <$> Server.handlers s))
            !! i = Some (call h)) as Hfi
    by (by simpl; rewrite list_lookup_fmap, Hi).
  pose proof (frame_lookup_inv c _ _ _ Hpool Hfi) as Hframe.
  pose proof (close_finds_open c s i h Hc Hinv Hi) as Hopen.
  assert (∀ h1, call h1 = call h →
            pool_inv c (Pool.mk (Server.store s)
                          (call <$> <[i := h1]> (Server.handlers s))))
    as Hsame.
  { intros h1 H1. by rewrite (fmap_insert_same call _ _ h h1). }
  unfold handler_step in Hh. unfold handler_inv in Hhi.
  destruct h as [pc f nt rs]; simpl in *.
  destruct pc; simpl in *.
  - (* note := store.get() *)
    destruct Hhi as [-> ->].
    destruct (gpc f) eqn:Hg.
    7: { simplify_eq.
         eapply srv_inv_handlers_update; [exact Hinv|exact Hi|..].
         - by apply Hsame.
         - by unfold handler_inv; simpl.
         - simpl; lia.
         - simpl; lia. }
    all: destruct (get_step (Server.store s) f) as [[s1 f1]|] eqn:Hgs;
      simplify_eq/=.
    all: eapply srv_inv_handlers_update;
      [exact Hinv|exact Hi| |by unfold handler_inv; simpl
      |simpl; lia|simpl; lia].
    all: rewrite list_fmap_insert; simpl.
    all: apply (pool_inv_step c Hc
                  (Pool.mk (Server.store s) (call <$> Server.handlers s)) _ i);
      [done|].
    all: unfold Pool.step; simpl; rewrite list_lookup_fmap, Hi; simpl.
    all: by rewrite Hgs.
  - (* if note == nil *)
    destruct Hhi as (Hg & -> & ->).
    unfold frame_inv in Hframe. rewrite Hg in Hframe.
    destruct Hframe as [_ Hl].
    destruct (Slice.is_nil (local f)) eqn:Hnil; simplify_eq.
    + eapply srv_inv_handlers_update;
        [exact Hinv|exact Hi|by apply Hsame| |simpl; lia|simpl; lia].
      unfold handler_inv; simpl. destruct Hl as [Hl|Hl]; [done|].
      rewrite Hl in Hnil. congruence.
    + eapply srv_inv_handlers_update;
        [exact Hinv|exact Hi|by apply Hsame| |simpl; lia|simpl; lia].
      unfold handler_inv; simpl. destruct Hl as [Hl|Hl]; [|done].
      by rewrite Hl in Hnil.
  - (* http.NotFound *)
    destruct Hhi as (Hg & -> & Hn & ->). simplify_eq.
    eapply srv_inv_handlers_update;
      [exact Hinv|exact Hi|by apply Hsame| | |simpl; lia].
    + unfold handler_inv; simpl. auto.
    + unfold delivered; simpl. rewrite Hn. simpl. lia.
  - (* Header().Set *)
    destruct Hhi as (Hg & -> & Hn & ->). simplify_eq.
    eapply srv_inv_handlers_update;
      [exact Hinv|exact Hi|by apply Hsame| |simpl; lia|simpl; lia].
    by unfold handler_inv; simpl.
  - (* Write *)
    destruct Hhi as (Hg & -> & Hn & ->). simplify_eq.
    eapply srv_inv_handlers_update;
      [exact Hinv|exact Hi|by apply Hsame| |simpl; lia|simpl; lia].
    by unfold handler_inv; simpl.
  - (* close(done) *)
    destruct Hhi as (Hg & -> & Hn & ->).
    pose proof (Hopen eq_refl) as Hd. rewrite Hd in Hh. simpl in Hh.
    simplify_eq.
    eapply srv_inv_handlers_update;
      [exact Hinv|exact Hi|by apply Hsame| | |].
    + unfold handler_inv; simpl. auto.
    + unfold delivered; simpl. rewrite Hc, Hd. simpl. lia.
    + rewrite Hd. simpl. lia.
  - done.
  - done.
Qed.

Lemma srv_inv_step (c : Slice.t) (l : Server.label) (s s' : Server.t) :
  Slice.is_nil c = false →
  srv_inv c s → Server.step l s = Some s' → srv_inv c s'.
Proof.
  intros Hc Hinv Hstep. destruct l.
  - unfold Server.step in Hstep. destruct (Server.alive s); [|done].
    by eapply srv_inv_main_step.
  - by eapply srv_inv_dial.
  - by eapply srv_inv_select.
  - by eapply srv_inv_shutdown_returns.
  - by eapply srv_inv_serve_fails.
  - by eapply srv_inv_request.
  - unfold Server.step in Hstep. destruct (Server.alive s); [|done].
    by eapply srv_inv_handler.
  - by eapply srv_inv_signal.
Qed.

Lemma srv_inv_run (c : Slice.t) (ls : list Server.label) (s : Server.t) :
  Slice.is_nil c = false → srv_inv c s → srv_inv c (Server.run ls s).
Proof.
  intros Hc. revert s. induction ls as [|l ls IH]; intros s Hinv; [done|].
  change (Server.run (l :: ls) s)
    with (Server.run ls (default s (Server.step l s))).
  apply IH. destruct (Server.step l s) as [s'|] eqn:Hstep; simpl; [|done].
  by eapply srv_inv_step.
Qed.

(** ** Facts about runs of the server *)

Lemma run_app (l1 l2 : list Server.label) (s : Server.t) :
  Server.run (l1 ++ l2) s = Server.run l2 (Server.run l1 s).
Proof. unfold Server.run. by rewrite foldl_app. Qed.

Lemma run_cons (l : Server.label) (ls : list Server.label) (s : Server.t) :
  Server.run (l :: ls) s = Server.run ls (default s (Server.step l s)).
Proof. done. Qed.

(** Nothing moves once the process has ended. *)
Lemma step_exited (l : Server.label) (s : Server.t) (code : nat) :
  Server.pc s = MExit code → Server.step l s = None.
Proof. intros Hpc. unfold Server.step, Server.alive. by rewrite Hpc. Qed.

Lemma run_exited (ls : list Server.label) (s : Server.t) (code : nat) :
  Server.pc s = MExit code → Server.run ls s = s.
Proof.
  intros Hpc. induction ls as [|l ls IH]; [done|].
  by rewrite run_cons, (step_exited l s code Hpc).
Qed.

Lemma handler_move_pc (i : nat) (s s' : Server.t) :
  Server.handler_move i s = Some s' → Server.pc s' = Server.pc s.
Proof.
  unfold Server.handler_move. intros H.
  destruct (Server.handlers s !! i); simplify_eq/=.
  by destruct (handler_step _ _ _) as [[[??]?]|]; simplify_eq/=.
Qed.

(** [main] only moves forward. *)
Lemma step_rank (l : Server.label) (s s' : Server.t) :
  Server.step l s = Some s' →
  main_rank (Server.pc s) ≤ main_rank (Server.pc s').
Proof.
  unfold Server.step. destruct (Server.alive s); [|done].
  destruct l as [|r|[]|[e|]|e| |i|sig]; intros H.
  - unfold Server.main_step in H.
    destruct (Server.pc s); simplify_eq; simpl; lia.
  - destruct (Server.pc s); try done.
    destruct (getOutboundIP r); simplify_eq; simpl; lia.
  - destruct (Server.pc s); try done.
    destruct (Server.done s); simplify_eq; simpl; lia.
  - destruct (Server.pc s), (Server.stop s); simplify_eq; simpl; lia.
  - destruct (Server.pc s); simplify_eq; simpl; lia.
  - destruct (Server.pc s); try done.
    destruct (forallb _ _); simplify_eq; simpl; lia.
  - destruct (Server.accepting s); simplify_eq; simpl.
    destruct (Server.pc s); simpl; lia.
  - destruct (Server.accepting s); simplify_eq; simpl; lia.
  - by rewrite (handler_move_pc _ _ _ H).
  - destruct (Server.notified s); [|done].
    destruct (_ <? _); simplify_eq; simpl; lia.
Qed.

Lemma run_rank (ls : list Server.label) (s : Server.t) :
  main_rank (Server.pc s) ≤ main_rank (Server.pc (Server.run ls s)).
Proof.
  revert s. induction ls as [|l ls IH]; intros s; [done|].
  rewrite run_cons. etrans; [|apply IH].
  destruct (Server.step l s) as [s'|] eqn:Hs; simpl; [|done].
  by eapply step_rank.
Qed.

(** ** Start-up *)

Lemma read_content_quiet (env : Env) (tr : list effect) (c : Slice.t) :
  read_content env = (tr, Some c) →
  Forall (λ e, late e = false) tr ∧ count is_construction tr = 0.
Proof.
  unfold read_content. intros H.
  destruct (stdin_stat env) as [mode|e]; [|by simplify_eq].
  destruct (Z.land mode ModeCharDevice =? 0)%Z.
  - destruct (stdin_data env); simplify_eq. split; [|done].
    by repeat constructor.
  - destruct (length (args env) <? 2); simplify_eq. split; [|done].
    by repeat constructor.
Qed.

(** When start-up gets as far as the bound listener, the store holds
    the non-empty content and nothing after the listener has happened
    yet. *)
Lemma start_listening (env : Env) (srv : Server.t) :
  start env = Listening srv →
  ∃ tr c,
    read_content env = (tr, Some c) ∧ 0 < Slice.len c ∧
    32 ≤ length (entropy env) ∧
    srv = Server.init c
            ("/" +:+ Base64.EncodeToString (take 32 (entropy env)))
            (Server.port srv)
            (tr ++ [ENewStore c; ERandRead 32;
                    ENewMux ("/" +:+ Base64.EncodeToString
                                       (take 32 (entropy env)));
                    EListen]) ∧
    listen env = Ok (Server.port srv).
Proof.
  unfold start. intros H.
  destruct (read_content env) as [tr [c|]] eqn:Hrc; [|done].
  destruct (Slice.len c =? 0) eqn:Hlen; [done|].
  apply Nat.eqb_neq in Hlen.
  unfold rand_Read in H. rewrite length_replicate in H.
  destruct (Nat.min 32 (length (entropy env)) <? 32) eqn:Hmin; [done|].
  apply Nat.ltb_ge in Hmin.
  assert (Nat.min 32 (length (entropy env)) = 32) as Hm by lia.
  rewrite Hm in H.
  replace (drop 32 (replicate 32 "000"%byte)) with (@nil byte) in H
    by reflexivity.
  rewrite app_nil_r in H.
  destruct (listen env) as [port|e] eqn:Hl; [|done].
  simplify_eq. exists tr, c. simpl.
  repeat split; [lia|lia|].
  by rewrite <- !app_assoc.
Qed.

Lemma start_inv (env : Env) (srv : Server.t) :
  start env = Listening srv →
  ∃ c, 0 < Slice.len c ∧ Server.store srv = newNoteStore c ∧
       Server.pc srv = MGo ∧ srv_inv c srv.
Proof.
  intros H. destruct (start_listening _ _ H) as (tr & c & Hrc & Hc & _ & -> & _).
  exists c. split; [done|]. split; [done|]. split; [done|].
  apply srv_inv_init. apply Forall_app. split.
  - by destruct (read_content_quiet _ _ _ Hrc).
  - by repeat constructor.
Qed.

Lemma reachable_inv (env : Env) (srv : Server.t) (ls : list Server.label) :
  start env = Listening srv →
  ∃ c, 0 < Slice.len c ∧ Server.store srv = newNoteStore c ∧
       srv_inv c (Server.run ls srv).
Proof.
  intros H. destruct (start_inv _ _ H) as (c & Hc & Hs & _ & Hinv).
  exists c. split; [done|]. split; [done|].
  apply srv_inv_run; [by apply len_pos_not_nil|done].
Qed.

(** ** The handler: the claims *)






(** ** The two signals: the claims *)

Lemma on_close_path_winner (c : Slice.t) (h : handler_frame) :
  Slice.is_nil c = false → handler_inv c h → on_close_path h = true →
  winner (call h) = true.
Proof.
  intros Hc Hh Hp. unfold handler_inv in Hh. unfold on_close_path in Hp.
  unfold winner.
  destruct (hpc h); try done.
  - destruct Hh as (-> & Hn & Hnc & _). by rewrite <- Hn, Hnc, Hc.
  - destruct Hh as (-> & Hn & Hnc & _). by rewrite <- Hn, Hnc, Hc.
  - destruct Hh as (-> & Hn & Hnc & _). by rewrite <- Hn, Hnc, Hc.
  - destruct Hh as (-> & Hn & _). by rewrite <- Hn.
Qed.

(** The runtime relaying a signal touches nothing but the buffer of
    [stop]. *)
Lemma signal_only_stop (sig : signal) (s s' : Server.t) :
  Server.step (Server.LSignal sig) s = Some s' →
  ∃ q, s' = Server.set_stop q s.
Proof.
  unfold Server.step. destruct (Server.alive s); [|done].
  destruct (Server.notified s); [|done].
  destruct (_ <? _); intros [= <-].
  - by eexists.
  - exists (Server.stop s). by destruct s.
Qed.

(** Once [main] has left the [select], nothing reads [stop] any more:
    every other step goes through unchanged whatever the buffer
    holds. *)
Lemma stop_dead_after_select (l : Server.label) (s s' : Server.t)
    (q : list signal) :
  main_rank MSelect < main_rank (Server.pc s) →
  (∀ sg, l ≠ Server.LSignal sg) →
  Server.step l s = Some s' →
  Server.step l (Server.set_stop q s) = Some (Server.set_stop q s').
Proof.
  intros Hrank Hl. unfold Server.step.
  change (Server.alive (Server.set_stop q s)) with (Server.alive s).
  destruct (Server.alive s); [|done].
  destruct l as [|r|[]|[e|]|e| |i|sg]; intros H.
  - unfold Server.main_step in *.
    change (Server.pc (Server.set_stop q s)) with (Server.pc s).
    by destruct (Server.pc s); simplify_eq.
  - change (Server.pc (Server.set_stop q s)) with (Server.pc s).
    destruct (Server.pc s); try done.
    by destruct (getOutboundIP r); simplify_eq.
  - change (Server.pc (Server.set_stop q s)) with (Server.pc s).
    change (Server.done (Server.set_stop q s)) with (Server.done s).
    destruct (Server.pc s); try done.
    by destruct (Server.done s); simplify_eq.
  - destruct (Server.pc s); try done; try by destruct (Server.stop s).
    simpl in Hrank. lia.
  - change (Server.pc (Server.set_stop q s)) with (Server.pc s).
    by destruct (Server.pc s); simplify_eq.
  - change (Server.pc (Server.set_stop q s)) with (Server.pc s).
    change (Server.handlers (Server.set_stop q s)) with (Server.handlers s).
    destruct (Server.pc s); try done.
    by destruct (forallb _ _); simplify_eq.
  - change (Server.accepting (Server.set_stop q s)) with (Server.accepting s).
    by destruct (Server.accepting s); simplify_eq.
  - change (Server.accepting (Server.set_stop q s)) with (Server.accepting s).
    by destruct (Server.accepting s); simplify_eq.
  - unfold Server.handler_move in *.
    change (Server.handlers (Server.set_stop q s)) with (Server.handlers s).
    destruct (Server.handlers s !! i); simplify_eq/=.
    by destruct (handler_step _ _ _) as [[[??]?]|]; simplify_eq/=.
  - by destruct (Hl sg).
Qed.

(** C7. [close(done)] is executed at most once in the life of the
    process and never on a closed channel, where it would panic (no
    handler panics): only a handler whose call of [get] returned the
    payload is on the way to it, and there is at most one such handler.
    [main] takes a signal from [stop] at most once; the buffer of
    [stop] holds at most one signal; a signal that arrives while one is
    waiting changes nothing at all, and a signal that arrives after
    [main] has left the [select] changes only the buffer, which
    nothing reads any more. *)
Theorem signals_raised_once (env : Env) (srv0 : Server.t)
    (ls : list Server.label) (sig : signal) :
  start env = Listening srv0 →
  let srv := Server.run ls srv0 in
  Server.closes srv ≤ 1 ∧
  Server.closes srv = Nat.b2n (Server.done srv) ∧
  (∀ i h, Server.handlers srv !! i = Some h → hpc h ≠ HPanic) ∧
  (∀ i h, Server.handlers srv !! i = Some h → hpc h = HClose →
          Server.done srv = false) ∧
  (∀ i j hi hj,
     Server.handlers srv !! i = Some hi → on_close_path hi = true →
     Server.handlers srv !! j = Some hj → on_close_path hj = true →
     i = j) ∧
  (∀ i h, Server.handlers srv !! i = Some h → on_close_path h = true →
          winner (call h) = true) ∧
  length (Server.stop srv) ≤ 1 ∧
  length (Server.received srv) ≤ 1 ∧
  (Server.stop srv ≠ [] →
   ∀ srv', Server.step (Server.LSignal sig) srv = Some srv' → srv' = srv) ∧
  (∀ srv', Server.step (Server.LSignal sig) srv = Some srv' →
           ∃ q, srv' = Server.set_stop q srv) ∧
  (main_rank MSelect < main_rank (Server.pc srv) →
   ∀ l srv' q, (∀ sg, l ≠ Server.LSignal sg) →
     Server.step l srv = Some srv' →
     Server.step l (Server.set_stop q srv) = Some (Server.set_stop q srv')).
Proof.
  intros Hstart srv.
  destruct (reachable_inv env srv0 ls Hstart) as (c & Hc & Hst & Hinv).
  fold srv in Hinv. pose proof (len_pos_not_nil _ Hc) as Hnil.
  pose proof (proj1 (Forall_lookup _ _) (si_handlers _ _ Hinv)) as Hall.
  repeat match goal with |- _ ∧ _ => split end.
  - rewrite (si_closes _ _ Hinv). apply b2n_le_1.
  - apply (si_closes _ _ Hinv).
  - intros i h Hi Hpc. pose proof (Hall _ _ Hi) as Hh.
    unfold handler_inv in Hh. by rewrite Hpc in Hh.
  - intros i h Hi Hpc. by eapply close_finds_open.
  - intros i j hi hj Hi Hpi Hj Hpj.
    eapply (count_unique winner (call <$> Server.handlers srv)).
    + pose proof (inv_winner _ _ (si_pool _ _ Hinv)) as Hw. simpl in Hw.
      rewrite Hw. apply b2n_le_1.
    + by rewrite list_lookup_fmap, Hi.
    + eapply on_close_path_winner; eauto.
    + by rewrite list_lookup_fmap, Hj.
    + eapply on_close_path_winner; eauto.
  - intros i h Hi Hp. eapply on_close_path_winner; eauto.
  - apply (si_stop _ _ Hinv).
  - apply (si_received _ _ Hinv).
  - intros Hne srv' Hstep. unfold Server.step in Hstep.
    destruct (Server.alive srv); [|done].
    destruct (Server.notified srv); [|done].
    destruct (Server.stop srv) as [|x q]; [done|]. simpl in Hstep.
    by simplify_eq.
  - intros srv'. apply signal_only_stop.
  - intros Hrank l srv' q Hl Hstep. by apply stop_dead_after_select.
Qed.

Lemma signals_raised_once_witness :
  start env_hello = Listening srv_hello ∧
  Server.closes (Server.run race_hello srv_hello) ≤ 1.
Proof.
  assert (start env_hello = Listening srv_hello) as Hstart
    by (vm_compute; reflexivity).
  split; [exact Hstart|].
  exact (proj1 (signals_raised_once env_hello srv_hello race_hello SIGINT
                  Hstart)).
Defined.

(** ** The shutdown race: the claims *)

(** C5. [main] stays in the [select] as long as [done] is open and
    [stop] is empty; as soon as one of the two has occurred it can take
    that case, whatever the state of the other, and goes on to
    [Shutdown].  [Shutdown] is called exactly once, with a timeout of
    five seconds, from that one place; [main] never goes back to a
    statement it has left, so never back into the [select].  When
    [Shutdown] fails, the error is logged and the process ends with
    status 0, as it does when [Shutdown] succeeds. *)
Theorem coordinator_shuts_down_once (env : Env) (srv0 : Server.t)
    (ls : list Server.label) :
  start env = Listening srv0 →
  let srv := Server.run ls srv0 in
  (Server.pc srv = MSelect → Server.done srv = false → Server.stop srv = [] →
   ∀ l srv', Server.step l srv = Some srv' →
             Server.pc srv' = MSelect ∨ ∃ e, l = Server.LServeFails e) ∧
  (Server.pc srv = MSelect → Server.done srv = true →
   Server.step (Server.LSelect Delivered) srv
     = Some (Server.set_pc (MShutdown Delivered) srv)) ∧
  (Server.pc srv = MSelect → ∀ x q, Server.stop srv = x :: q →
   Server.step (Server.LSelect Interrupted) srv
     = Some (Server.set_pc (MShutdown Interrupted)
               (Server.receive x (Server.set_stop q srv)))) ∧
  (∀ k, Server.pc srv = MShutdown k →
   Server.step Server.LMain srv
     = Some (Server.set_pc (MWait k)
               (Server.set_accepting false
                  (Server.emit [EShutdown shutdownTimeout] srv)))) ∧
  Server.shutdown_calls srv =
    match Server.pc srv with
    | MWait _ | MLog _ | MExit 0 => [EShutdown (5 * 1000000000)]
    | _ => []
    end ∧
  (∀ more, main_rank (Server.pc srv)
           ≤ main_rank (Server.pc (Server.run more srv))) ∧
  (∀ more, main_rank MSelect < main_rank (Server.pc srv) →
           Server.pc (Server.run more srv) ≠ MSelect) ∧
  (∀ k e, Server.pc srv = MWait k →
   ∃ s1 s2,
     Server.step (Server.LShutdownReturns (Some e)) srv = Some s1 ∧
     Server.step Server.LMain s1 = Some s2 ∧
     Server.pc s2 = MExit 0 ∧
     Server.trace s2
       = Server.trace srv ++ [ELog ("server shutdown failed: " +:+ e); EExit 0]) ∧
  (∀ k s1, Server.pc srv = MWait k →
   Server.step (Server.LShutdownReturns None) srv = Some s1 →
   Server.pc s1 = MExit 0 ∧ Server.trace s1 = Server.trace srv ++ [EExit 0]).
Proof.
  intros Hstart srv.
  destruct (reachable_inv env srv0 ls Hstart) as (c & Hc & Hst & Hinv).
  fold srv in Hinv.
  split; [|split; [|split; [|split; [|split; [|split; [|split; [|split]]]]]]].
  - intros Hpc Hd Hq l srv' Hstep. unfold Server.step in Hstep.
    destruct (Server.alive srv); [|done].
    destruct l as [|r|[]|[e|]|e| |i|sg].
    + unfold Server.main_step in Hstep. by rewrite Hpc in Hstep.
    + by rewrite Hpc in Hstep.
    + by rewrite Hpc, Hd in Hstep.
    + by rewrite Hpc, Hq in Hstep.
    + by rewrite Hpc in Hstep.
    + by rewrite Hpc in Hstep.
    + right. by exists e.
    + left. destruct (Server.accepting srv); by simplify_eq.
    + left. by rewrite (handler_move_pc _ _ _ Hstep).
    + left. destruct (Server.notified srv); [|done].
      destruct (_ <? _); by simplify_eq.
  - intros Hpc Hd. unfold Server.step, Server.alive. by rewrite Hpc, Hd.
  - intros Hpc x q Hq. unfold Server.step, Server.alive. by rewrite Hpc, Hq.
  - intros k Hpc. unfold Server.step, Server.alive, Server.main_step.
    by rewrite Hpc.
  - apply (si_shutdown _ _ Hinv).
  - intros more. apply run_rank.
  - intros more Hlt Hpc. pose proof (run_rank more srv) as Hr.
    rewrite Hpc in Hr. simpl in *. lia.
  - intros k e Hpc. eexists _, _.
    unfold Server.step, Server.alive, Server.main_step. rewrite Hpc. simpl.
    done.
  - intros k s1 Hpc Hstep. unfold Server.step, Server.alive in Hstep.
    rewrite Hpc in Hstep. destruct (forallb _ _); by simplify_eq.
Qed.

Lemma coordinator_shuts_down_once_witness :
  start env_hello = Listening srv_hello ∧
  Server.shutdown_calls
    (Server.run
       (race_hello ++
        [Server.LDial (Ok (UDPAddr "192.0.2.7")); Server.LMain; Server.LMain;
         Server.LSelect Delivered; Server.LMain;
         Server.LShutdownReturns None]) srv_hello)
  = [EShutdown (5 * 1000000000)].
Proof.
  assert (start env_hello = Listening srv_hello) as Hstart
    by (vm_compute; reflexivity).
  split; [exact Hstart|].
  exact (proj1 (proj2 (proj2 (proj2 (proj2
    (coordinator_shuts_down_once env_hello srv_hello
       (race_hello ++
        [Server.LDial (Ok (UDPAddr "192.0.2.7")); Server.LMain; Server.LMain;
         Server.LSelect Delivered; Server.LMain;
         Server.LShutdownReturns None]) Hstart)))))).
Defined.

(** ** Address discovery: the claims *)

(** [getOutboundIP] fails when the dial fails or when the local address
    is not a UDP address, and never invents an address. *)
Lemma getOutboundIP_spec (dial : result Addr) :
  match getOutboundIP dial with
  | Ok ip => dial = Ok (UDPAddr ip)
  | Err e =>
      dial = Err e ∨
      (dial = Ok OtherAddr ∧ e = "could not assert type to *net.UDPAddr")
  end.
Proof. destruct dial as [[ip|]|e]; simpl; auto. Qed.

(** C8, as stated, fails: when the dial fails the goroutine running
    [server.Serve] has been started six lines earlier. *)
Lemma outbound_failure_after_serve : ¬ aborts_before_serving.
Proof.
  intros H.
  specialize (H env_hello
                [Server.LMain; Server.LDial (Err "network is unreachable")]
                "network is unreachable").
  assert (count is_serve
            (main env_hello
               [Server.LMain; Server.LDial (Err "network is unreachable")])
          = 1) as H1 by (vm_compute; reflexivity).
  rewrite H in H1; [discriminate|].
  vm_compute. do 8 apply list_elem_of_further. apply list_elem_of_here.
Qed.

(** A request can even be answered with the note before the discovery
    fails. *)
Example note_served_before_failure :
  let srv :=
    Server.run (race_hello ++ [Server.LDial (Err "network is unreachable")])
      srv_hello in
  Server.exit_code srv = Some 1 ∧ Server.done srv = true ∧
  (status ∘ resp) <$> Server.handlers srv = [Some 200; Some 404].
Proof. vm_compute. done. Qed.

(** C8, amended. When address discovery fails, for either reason, the
    process logs the error and ends with status 1: no address is made
    up, the URL is not displayed, main gets no further and nothing runs
    afterwards.  The listener is bound and [server.Serve] is running at
    that moment. *)
Theorem outbound_failure_fatal (env : Env) (srv0 : Server.t)
    (ls : list Server.label) (r : result Addr) (e : string) :
  start env = Listening srv0 →
  Server.pc (Server.run ls srv0) = MGetOutboundIP →
  getOutboundIP r = Err e →
  let srv := Server.run ls srv0 in
  ∃ srv',
    Server.step (Server.LDial r) srv = Some srv' ∧
    Server.exit_code srv' = Some 1 ∧
    Server.trace srv'
      = Server.trace srv ++
        [EDial; ELog ("failed to get outbound ip: " +:+ e); EExit 1] ∧
    exit_status (main env (ls ++ [Server.LDial r])) = Some 1 ∧
    count is_display (Server.trace srv') = 0 ∧
    (∀ more, Server.run more srv' = srv') ∧
    Server.accepting srv = true.
Proof.
  intros Hstart Hpc Hr srv.
  destruct (reachable_inv env srv0 ls Hstart) as (c & Hc & Hst & Hinv).
  fold srv in Hinv, Hpc.
  assert (Server.step (Server.LDial r) srv
          = Some (Server.die ("failed to get outbound ip: " +:+ e)
                    (Server.emit [EDial] srv))) as Hstep.
  { unfold Server.step, Server.alive. by rewrite Hpc, Hr. }
  eexists. split; [exact Hstep|].
  assert (Server.trace
            (Server.die ("failed to get outbound ip: " +:+ e)
               (Server.emit [EDial] srv))
          = Server.trace srv ++
            [EDial; ELog ("failed to get outbound ip: " +:+ e); EExit 1])
    as Htr by (by simpl; rewrite <- app_assoc).
  split; [done|]. split; [exact Htr|]. split; [|split; [|split]].
  - unfold main. rewrite Hstart, run_app. fold srv.
    rewrite run_cons, Hstep. simpl default.
    change (Server.run [] ?s) with s. rewrite Htr.
    unfold exit_status.
    by rewrite (last_app (Server.trace srv) [EDial; ELog _; EExit 1]).
  - rewrite Htr, count_app. simpl.
    pose proof (si_display _ _ Hinv) as Hd. rewrite Hpc in Hd.
    rewrite Hd; [done|simpl; lia].
  - intros more. by apply run_exited with 1.
  - pose proof (si_accepting _ _ Hinv) as Ha. by rewrite Hpc in Ha.
Qed.

Lemma outbound_failure_fatal_witness :
  start env_hello = Listening srv_hello ∧
  Server.pc (Server.run [Server.LMain] srv_hello) = MGetOutboundIP ∧
  getOutboundIP (Ok OtherAddr) = Err "could not assert type to *net.UDPAddr" ∧
  ∃ srv',
    Server.step (Server.LDial (Ok OtherAddr))
      (Server.run [Server.LMain] srv_hello) = Some srv' ∧
    Server.exit_code srv' = Some 1.
Proof.
  assert (start env_hello = Listening srv_hello) as Hstart
    by (vm_compute; reflexivity).
  split; [exact Hstart|]. split; [reflexivity|]. split; [reflexivity|].
  destruct (outbound_failure_fatal env_hello srv_hello [Server.LMain]
              (Ok OtherAddr) "could not assert type to *net.UDPAddr"
              Hstart eq_refl eq_refl) as (srv' & H1 & H2 & _).
  exists srv'. split; [exact H1|exact H2].
Defined.

(** ** Start-up: the claims *)

(** The part of [main] after the listener builds no store. *)
Lemma step_trace (l : Server.label) (s s' : Server.t) :
  Server.step l s = Some s' →
  ∃ es, Server.trace s' = Server.trace s ++ es ∧ Forall not_new_store es.
Proof.
  unfold Server.step. destruct (Server.alive s); [|done].
  assert (∃ es, Server.trace s = Server.trace s ++ es ∧ Forall not_new_store es)
    as Hsame by (exists []; by rewrite app_nil_r).
  destruct l as [|r|[]|[e|]|e| |i|sig]; intros H.
  - unfold Server.main_step in H.
    destruct (Server.pc s); simplify_eq; simpl;
      (eexists; split; [reflexivity|]); by repeat constructor.
  - destruct (Server.pc s); try done.
    destruct (getOutboundIP r); simplify_eq; simpl.
    + eexists; split; [reflexivity|]. by repeat constructor.
    + rewrite <- app_assoc. eexists; split; [reflexivity|].
      by repeat constructor.
  - destruct (Server.pc s); try done.
    by destruct (Server.done s); simplify_eq.
  - by destruct (Server.pc s), (Server.stop s); simplify_eq.
  - by destruct (Server.pc s); simplify_eq.
  - destruct (Server.pc s); try done.
    destruct (forallb _ _); simplify_eq; simpl.
    eexists; split; [reflexivity|]. by repeat constructor.
  - destruct (Server.accepting s); simplify_eq; simpl.
    eexists; split; [reflexivity|]. by repeat constructor.
  - by destruct (Server.accepting s); simplify_eq.
  - unfold Server.handler_move in H.
    destruct (Server.handlers s !! i); simplify_eq/=.
    by destruct (handler_step _ _ _) as [[[??]?]|]; simplify_eq/=.
  - destruct (Server.notified s); [|done].
    by destruct (_ <? _); simplify_eq.
Qed.

Lemma run_new_store (ls : list Server.label) (s : Server.t) (c : Slice.t) :
  ENewStore c ∈ Server.trace (Server.run ls s) → ENewStore c ∈ Server.trace s.
Proof.
  revert s. induction ls as [|l ls IH]; intros s; [done|].
  rewrite run_cons. intros H. apply IH in H.
  destruct (Server.step l s) as [s'|] eqn:Hs; simpl in H; [|done].
  destruct (step_trace _ _ _ Hs) as (es & Htr & Hes).
  rewrite Htr in H. apply elem_of_app in H as [H|H]; [done|].
  by apply (proj1 (Forall_forall _ _) Hes) in H.
Qed.

Lemma no_construction_no_store (tr : list effect) (c : Slice.t) :
  count is_construction tr = 0 → ENewStore c ∉ tr.
Proof.
  intros Hc Hin. apply list_elem_of_lookup in Hin as [i Hi].
  by pose proof (count_zero_lookup _ _ _ _ Hc Hi).
Qed.

Lemma read_content_no_store (env : Env) (c : Slice.t) :
  ENewStore c ∉ (read_content env).1.
Proof.
  apply no_construction_no_store. unfold read_content.
  destruct (stdin_stat env) as [mode|e]; [|done].
  destruct (Z.land mode ModeCharDevice =? 0)%Z.
  - by destruct (stdin_data env).
  - by destruct (length (args env) <? 2).
Qed.

(** A store is only ever built around non-empty content. *)
Lemma new_store_non_empty (env : Env) (ls : list Server.label)
    (c : Slice.t) :
  ENewStore c ∈ main env ls → 0 < Slice.len c.
Proof.
  unfold main. intros H.
  assert (ENewStore c ∈ main env []) as H0.
  { unfold main. destruct (start env) as [tr|srv]; [done|].
    by apply run_new_store in H. }
  clear H. unfold main, start in H0.
  pose proof (read_content_no_store env c) as Hrc.
  destruct (read_content env) as [tr [c'|]]; cbn [fst] in Hrc; [|done].
  destruct (Slice.len c' =? 0) eqn:Hlen.
  { apply elem_of_app in H0 as [?|H0]; [done|].
    by repeat (apply elem_of_cons in H0 as [?|H0]; [done|]);
       apply elem_of_nil in H0. }
  apply Nat.eqb_neq in Hlen.
  assert (ENewStore c ∈ tr ++ [ENewStore c'] → 0 < Slice.len c) as Hkey.
  { intros Hin. apply elem_of_app in Hin as [?|Hin]; [done|].
    apply list_elem_of_singleton in Hin. simplify_eq. lia. }
  destruct (rand_Read (entropy env) (replicate 32 "000"%byte))
    as [bytes [e|]].
  - apply elem_of_app in H0 as [H0|H0].
    + apply elem_of_app in H0 as [H0|H0]; [by apply Hkey|].
      by apply list_elem_of_singleton in H0.
    + by repeat (apply elem_of_cons in H0 as [?|H0]; [done|]);
         apply elem_of_nil in H0.
  - destruct (listen env) as [port|e].
    + cbn [Server.init Server.trace] in H0.
      apply elem_of_app in H0 as [H0|H0];
        [|by apply list_elem_of_singleton in H0].
      apply elem_of_app in H0 as [H0|H0];
        [|by apply list_elem_of_singleton in H0].
      apply elem_of_app in H0 as [H0|H0]; [by apply Hkey|].
      by apply list_elem_of_singleton in H0.
    + apply elem_of_app in H0 as [H0|H0].
      * apply elem_of_app in H0 as [H0|H0];
          [|by apply list_elem_of_singleton in H0].
        apply elem_of_app in H0 as [H0|H0]; [by apply Hkey|].
        by apply list_elem_of_singleton in H0.
      * by repeat (apply elem_of_cons in H0 as [?|H0]; [done|]);
           apply elem_of_nil in H0.
Qed.

(** Empty content ends the process before anything is built. *)
Lemma empty_content_exits (env : Env) (ls : list Server.label)
    (tr : list effect) (c : Slice.t) :
  read_content env = (tr, Some c) → Slice.len c = 0 →
  start env = Exited (tr ++ [ELog "no content provided"; EExit 1]) ∧
  main env ls = tr ++ [ELog "no content provided"; EExit 1] ∧
  exit_status (main env ls) = Some 1 ∧
  count is_construction (main env ls) = 0.
Proof.
  intros Hrc Hlen.
  assert (start env = Exited (tr ++ [ELog "no content provided"; EExit 1]))
    as Hstart.
  { unfold start. rewrite Hrc, Hlen. done. }
  split; [done|]. unfold main. rewrite Hstart.
  split; [done|]. split.
  - unfold exit_status.
    by rewrite (last_app tr [ELog "no content provided"; EExit 1]).
  - rewrite count_app. destruct (read_content_quiet _ _ _ Hrc) as [_ ->].
    done.
Qed.

(** C4. When the content that was read is empty (a nil slice or a slice
    of length zero), [main] logs [no content provided] and ends with
    status 1 before the store is built, random bytes are drawn, the
    route is registered, the listener is bound or the server started;
    and in no run is a store built around empty content. *)
Theorem empty_payload_fatal (env : Env) (ls : list Server.label)
    (tr : list effect) (c : Slice.t) :
  read_content env = (tr, Some c) → Slice.len c = 0 →
  start env = Exited (tr ++ [ELog "no content provided"; EExit 1]) ∧
  main env ls = tr ++ [ELog "no content provided"; EExit 1] ∧
  exit_status (main env ls) = Some 1 ∧
  count is_construction (main env ls) = 0 ∧
  (∀ env' ls' c', ENewStore c' ∈ main env' ls' → 0 < Slice.len c') ∧
  (∀ env' srv, start env' = Listening srv →
               0 < Slice.len (content (Server.store srv))).
Proof.
  intros Hrc Hlen.
  destruct (empty_content_exits env ls tr c Hrc Hlen) as (H1 & H2 & H3 & H4).
  repeat (split; [done|]). split.
  - intros env' ls' c'. apply new_store_non_empty.
  - intros env' srv H. destruct (start_inv _ _ H) as (c' & Hc' & -> & _).
    done.
Qed.

Lemma empty_payload_fatal_witness :
  read_content env_empty = ([EStat; EReadAll], Some (Some [])) ∧
  Slice.len (Some []) = 0 ∧
  exit_status (main env_empty race_hello) = Some 1.
Proof.
  split; [reflexivity|]. split; [reflexivity|].
  exact (proj1 (proj2 (proj2
    (empty_payload_fatal env_empty race_hello [EStat; EReadAll] (Some [])
       eq_refl eq_refl)))).
Defined.

(** C10. When standard input is a character device and there are no
    arguments, [main] prints the usage line and returns: the status is
    0, and no store is built, no random bytes are drawn, no route is
    registered, no listener bound and no server started.  Empty piped
    input, in contrast, ends the process with status 1. *)
Theorem usage_exit (env : Env) (ls : list Server.label) (mode : Z) :
  stdin_stat env = Ok mode → Z.land mode ModeCharDevice ≠ 0%Z →
  length (args env) < 2 →
  start env = Exited [EStat; EPrintln usage; EExit 0] ∧
  main env ls = [EStat; EPrintln usage; EExit 0] ∧
  exit_status (main env ls) = Some 0 ∧
  count is_construction (main env ls) = 0 ∧
  (∀ env' mode',
     stdin_stat env' = Ok mode' → Z.land mode' ModeCharDevice = 0%Z →
     stdin_data env' = Ok [] →
     exit_status (main env' ls) = Some 1 ∧
     count is_construction (main env' ls) = 0).
Proof.
  intros Hstat Hmode Hargs.
  assert (read_content env = ([EStat; EPrintln usage; EExit 0], None)) as Hrc.
  { unfold read_content. rewrite Hstat.
    destruct (Z.eqb_spec (Z.land mode ModeCharDevice) 0); [done|].
    by destruct (Nat.ltb_spec (length (args env)) 2); [|lia]. }
  assert (start env = Exited [EStat; EPrintln usage; EExit 0]) as Hstart.
  { unfold start. by rewrite Hrc. }
  split; [done|]. unfold main at 1 2 3. rewrite Hstart.
  split; [done|]. split; [done|]. split; [done|].
  intros env' mode' Hstat' Hmode' Hdata.
  assert (read_content env' = ([EStat; EReadAll], Some (Some []))) as Hrc'.
  { unfold read_content. by rewrite Hstat', Hmode', Hdata. }
  destruct (empty_content_exits env' ls _ _ Hrc' eq_refl)
    as (_ & _ & H1 & H2).
  done.
Qed.

Lemma usage_exit_witness :
  stdin_stat env_usage = Ok ModeCharDevice ∧
  Z.land ModeCharDevice ModeCharDevice ≠ 0%Z ∧
  length (args env_usage) < 2 ∧
  main env_usage race_hello = [EStat; EPrintln usage; EExit 0].
Proof.
  assert (Z.land ModeCharDevice ModeCharDevice ≠ 0%Z) as H by (by vm_compute).
  assert (length (args env_usage) < 2) as H2 by (simpl; lia).
  split; [reflexivity|]. split; [exact H|]. split; [exact H2|].
  exact (proj1 (proj2
    (usage_exit env_usage race_hello ModeCharDevice eq_refl H H2))).
Defined.

(** ** Base64: arithmetic of the sextets *)

Section Base64Arith.
Local Open Scope Z_scope.

Lemma land_high_low (k y n : Z) :
  0 ≤ n → 0 ≤ y < 2 ^ n → Z.land (k * 2 ^ n) y = 0.
Proof.
  intros Hn Hy. apply Z.bits_inj'. intros m Hm.
  rewrite Z.land_spec, Z.bits_0, <- Z.shiftl_mul_pow2 by done.
  rewrite Z.shiftl_spec by done.
  destruct (Z.lt_ge_cases m n) as [Hlt|Hge].
  - rewrite (Z.testbit_neg_r k) by lia. done.
  - destruct (Z.eq_dec y 0) as [->|Hy0].
    + by rewrite Z.bits_0, andb_false_r.
    + rewrite (Z.bits_above_log2 y m), andb_false_r; [done|lia|].
      apply Z.log2_lt_pow2; [lia|].
      assert (2 ^ n ≤ 2 ^ m) by (apply Z.pow_le_mono_r; lia). lia.
Qed.

Lemma lor_high_low (k y n : Z) :
  0 ≤ n → 0 ≤ y < 2 ^ n → Z.lor (k * 2 ^ n) y = k * 2 ^ n + y.
Proof.
  intros Hn Hy. pose proof (land_high_low k y n Hn Hy) as Hl.
  by rewrite <- Z.lxor_lor, <- Z.add_nocarry_lxor.
Qed.

Lemma uint_range (b : byte) : 0 ≤ Base64.uint b < 256.
Proof.
  unfold Base64.uint. pose proof (Byte.to_N_bounded b). lia.
Qed.

Lemma uint_inj (a b : byte) : Base64.uint a = Base64.uint b → a = b.
Proof.
  unfold Base64.uint. intros H. apply N2Z.inj in H.
  pose proof (Byte.of_to_N a) as Ha. pose proof (Byte.of_to_N b) as Hb.
  congruence.
Qed.

Lemma val3 (a b c : Z) :
  0 ≤ a < 256 → 0 ≤ b < 256 → 0 ≤ c < 256 →
  Z.lor (Z.lor (Z.shiftl a 16) (Z.shiftl b 8)) c = a * 65536 + b * 256 + c.
Proof.
  intros Ha Hb Hc. rewrite !Z.shiftl_mul_pow2 by lia.
  rewrite (lor_high_low a (b * 2 ^ 8) 16) by lia.
  replace (a * 2 ^ 16 + b * 2 ^ 8) with ((a * 256 + b) * 2 ^ 8) by lia.
  rewrite lor_high_low by lia. lia.
Qed.

Lemma sextet_spec (v k : Z) : 0 ≤ k → Base64.sextet v k = (v / 2 ^ k) mod 64.
Proof.
  intros Hk. unfold Base64.sextet. rewrite Z.shiftr_div_pow2 by done.
  change 63 with (Z.ones 6). by rewrite Z.land_ones.
Qed.

Lemma low_sextet_spec (v : Z) : Z.land v 63 = v mod 64.
Proof. change 63 with (Z.ones 6). by rewrite Z.land_ones. Qed.

Lemma sextets_val (v : Z) :
  0 ≤ v < 16777216 →
  v = Base64.sextet v 18 * 262144 + Base64.sextet v 12 * 4096
      + Base64.sextet v 6 * 64 + Z.land v 63.
Proof.
  intros Hv. rewrite !sextet_spec, low_sextet_spec by lia.
  change (2 ^ 18) with 262144. change (2 ^ 12) with 4096. change (2 ^ 6) with 64.
  Z.div_mod_to_equations. lia.
Qed.

Lemma sextet_range (v k : Z) : 0 ≤ k → 0 ≤ Base64.sextet v k < 64.
Proof. intros Hk. rewrite sextet_spec by done. by apply Z.mod_pos_bound. Qed.

Lemma low_sextet_range (v : Z) : 0 ≤ Z.land v 63 < 64.
Proof. rewrite low_sextet_spec. by apply Z.mod_pos_bound. Qed.

(** The first three sextets fix all but the low six bits. *)
Lemma sextets3_inj (v v' : Z) :
  0 ≤ v < 16777216 → 0 ≤ v' < 16777216 →
  Base64.sextet v 18 = Base64.sextet v' 18 →
  Base64.sextet v 12 = Base64.sextet v' 12 →
  Base64.sextet v 6 = Base64.sextet v' 6 →
  v / 64 = v' / 64.
Proof.
  intros Hv Hv'. rewrite !sextet_spec by lia.
  change (2 ^ 18) with 262144. change (2 ^ 12) with 4096.
  change (2 ^ 6) with 64. intros H1 H2 H3.
  Z.div_mod_to_equations. lia.
Qed.

(** The first two sextets fix all but the low twelve bits. *)
Lemma sextets2_inj (v v' : Z) :
  0 ≤ v < 16777216 → 0 ≤ v' < 16777216 →
  Base64.sextet v 18 = Base64.sextet v' 18 →
  Base64.sextet v 12 = Base64.sextet v' 12 →
  v / 4096 = v' / 4096.
Proof.
  intros Hv Hv'. rewrite !sextet_spec by lia.
  change (2 ^ 18) with 262144. change (2 ^ 12) with 4096.
  intros H1 H2. Z.div_mod_to_equations. lia.
Qed.

Lemma val2 (a b : Z) :
  0 ≤ a < 256 → 0 ≤ b < 256 →
  Z.lor (Z.shiftl a 16) (Z.shiftl b 8) = a * 65536 + b * 256.
Proof.
  intros Ha Hb. pose proof (val3 a b 0 Ha Hb) as H.
  rewrite Z.lor_0_r in H. lia.
Qed.

Lemma val1 (a : Z) : Z.shiftl a 16 = a * 65536.
Proof. by rewrite Z.shiftl_mul_pow2. Qed.

End Base64Arith.

(** ** Base64: the alphabet *)

Lemma enc_index (v : Z) :
  (0 ≤ v < 64)%Z →
  Base64.index_of (Base64.enc v) Base64.alphabet = Some (Z.to_nat v).
Proof.
  intros Hv. unfold Base64.enc.
  assert (Z.to_nat v < 64) as Hn by lia.
  generalize dependent (Z.to_nat v). intros n Hn.
  do 64 (destruct n as [|n]; [vm_compute; reflexivity|]). lia.
Qed.

Lemma enc_inj (v v' : Z) :
  (0 ≤ v < 64)%Z → (0 ≤ v' < 64)%Z →
  Base64.enc v = Base64.enc v' → v = v'.
Proof.
  intros Hv Hv' H. pose proof (enc_index v Hv) as H1.
  rewrite H, (enc_index v' Hv') in H1. simplify_eq. lia.
Qed.

(** Every character of the alphabet can stand in a URL path as it is;
    the padding character is not one of them. *)
Lemma enc_unreserved (v : Z) :
  (0 ≤ v < 64)%Z → Base64.unreserved (Base64.enc v) = true.
Proof.
  intros Hv. unfold Base64.enc.
  assert (Z.to_nat v < 64) as Hn by lia.
  generalize dependent (Z.to_nat v). intros n Hn.
  do 64 (destruct n as [|n]; [vm_compute; reflexivity|]). lia.
Qed.

Lemma padChar_not_unreserved : Base64.unreserved Base64.padChar = false.
Proof. reflexivity. Qed.

(** ** Base64: the encoder *)

(** Induction over a list three elements at a time, as [Encode]
    recurses. *)
Lemma list_ind3 {A : Type} (P : list A → Prop) :
  P [] → (∀ a, P [a]) → (∀ a b, P [a; b]) →
  (∀ a b c l, P l → P (a :: b :: c :: l)) →
  ∀ l, P l.
Proof.
  intros H0 H1 H2 H3.
  assert (∀ l, P l ∧ (∀ a, P (a :: l)) ∧ (∀ a b, P (a :: b :: l))) as H.
  { induction l as [|x l (IH0 & IH1 & IH2)]; [by auto|].
    split; [by auto|]. split; [by auto|]. intros a b. by apply H3. }
  intros l. by destruct (H l).
Qed.

Lemma Encode_cons3 (a b c : byte) (l : list byte) :
  Base64.Encode (a :: b :: c :: l) =
    let val :=
      Z.lor (Z.lor (Z.shiftl (Base64.uint a) 16) (Z.shiftl (Base64.uint b) 8))
        (Base64.uint c) in
    Base64.enc (Base64.sextet val 18) :: Base64.enc (Base64.sextet val 12) ::
    Base64.enc (Base64.sextet val 6) :: Base64.enc (Z.land val 63) ::
    Base64.Encode l.
Proof. done. Qed.

(** The length of the output depends on the length of the input
    only. *)
Lemma Encode_length (l : list byte) :
  length (Base64.Encode l) = Base64.EncodedLen (length l).
Proof.
  induction l as [| | |a b c l IH] using list_ind3; try done.
  rewrite Encode_cons3. cbn [length]. rewrite IH. unfold Base64.EncodedLen.
  replace (S (S (S (length l))) + 2) with (1 * 3 + (length l + 2)) by lia.
  rewrite Nat.div_add_l by lia. lia.
Qed.

(** An input of [3k + 2] bytes: characters of the alphabet, then one
    padding character. *)
Lemma Encode_shape (l : list byte) :
  length l `mod` 3 = 2 →
  ∃ token,
    Base64.Encode l = token ++ [Base64.padChar] ∧
    Forall (λ b, Base64.unreserved b = true) token.
Proof.
  induction l as [| | |a b c l IH] using list_ind3; try done.
  - intros _. eexists [_; _; _]. split; [reflexivity|].
    repeat constructor; apply enc_unreserved; by apply sextet_range.
  - intros Hlen. destruct IH as (token & Htok & Hall).
    { cbn [length] in Hlen.
      replace (S (S (S (length l)))) with (length l + 1 * 3) in Hlen by lia.
      by rewrite Nat.Div0.mod_add in Hlen. }
    rewrite Encode_cons3. cbn zeta. rewrite Htok.
    eexists (_ :: _ :: _ :: _ :: token). split; [reflexivity|].
    repeat constructor; try done; apply enc_unreserved;
      (apply sextet_range || apply low_sextet_range); done.
Qed.

(** Inputs of one length with the same encoding are the same input. *)
Lemma Encode_inj (l1 l2 : list byte) :
  length l1 = length l2 → Base64.Encode l1 = Base64.Encode l2 → l1 = l2.
Proof.
  revert l2. induction l1 as [|a|a b|a b c l1 IH] using list_ind3;
    intros l2 Hlen Henc.
  - by destruct l2.
  - destruct l2 as [|a' [|]]; try done. cbn [Base64.Encode] in Henc.
    pose proof (uint_range a) as Ha. pose proof (uint_range a') as Ha'.
    injection Henc as H18 H12.
    apply enc_inj in H18, H12; try (by apply sextet_range).
    rewrite !val1 in H18, H12.
    pose proof (sextets2_inj (Base64.uint a * 65536) (Base64.uint a' * 65536))
      as Hv.
    assert (Base64.uint a = Base64.uint a') as Heq.
    { specialize (Hv ltac:(lia) ltac:(lia) H18 H12).
      revert Hv. Z.div_mod_to_equations. lia. }
    by rewrite (uint_inj _ _ Heq).
  - destruct l2 as [|a' [|b' [|]]]; try done. cbn [Base64.Encode] in Henc.
    pose proof (uint_range a) as Ha. pose proof (uint_range a') as Ha'.
    pose proof (uint_range b) as Hb. pose proof (uint_range b') as Hb'.
    injection Henc as H18 H12 H6.
    apply enc_inj in H18, H12, H6; try (by apply sextet_range).
    rewrite !val2 in H18, H12, H6 by done.
    pose proof (sextets3_inj (Base64.uint a * 65536 + Base64.uint b * 256)
                  (Base64.uint a' * 65536 + Base64.uint b' * 256)) as Hv.
    assert (Base64.uint a = Base64.uint a' ∧ Base64.uint b = Base64.uint b')
      as [Heqa Heqb].
    { specialize (Hv ltac:(lia) ltac:(lia) H18 H12 H6).
      revert Hv. Z.div_mod_to_equations. lia. }
    by rewrite (uint_inj _ _ Heqa), (uint_inj _ _ Heqb).
  - destruct l2 as [|a' [|b' [|c' l2]]]; try done.
    rewrite !Encode_cons3 in Henc. cbn zeta in Henc.
    pose proof (uint_range a) as Ha. pose proof (uint_range a') as Ha'.
    pose proof (uint_range b) as Hb. pose proof (uint_range b') as Hb'.
    pose proof (uint_range c) as Hc. pose proof (uint_range c') as Hc'.
    injection Henc as H18 H12 H6 H0 Hrest.
    apply enc_inj in H18, H12, H6, H0;
      try (by apply sextet_range); try apply low_sextet_range.
    rewrite !val3 in H18, H12, H6, H0 by done.
    pose proof (sextets_val (Base64.uint a * 65536 + Base64.uint b * 256
                             + Base64.uint c) ltac:(lia)) as Hv.
    pose proof (sextets_val (Base64.uint a' * 65536 + Base64.uint b' * 256
                             + Base64.uint c') ltac:(lia)) as Hv'.
    rewrite H18, H12, H6, H0 in Hv. rewrite <- Hv' in Hv.
    assert (Base64.uint a = Base64.uint a' ∧ Base64.uint b = Base64.uint b'
            ∧ Base64.uint c = Base64.uint c') as (Heqa & Heqb & Heqc) by lia.
    rewrite (uint_inj _ _ Heqa), (uint_inj _ _ Heqb), (uint_inj _ _ Heqc).
    do 3 f_equal. apply IH; [|done]. simpl in Hlen. lia.
Qed.

Lemma string_of_list_byte_length (l : list byte) :
  String.length (string_of_list_byte l) = length l.
Proof.
  unfold string_of_list_byte.
  induction l as [|b l IH]; simpl; [done|]. by rewrite IH.
Qed.

Lemma EncodeToString_inj (l1 l2 : list byte) :
  length l1 = length l2 →
  Base64.EncodeToString l1 = Base64.EncodeToString l2 → l1 = l2.
Proof.
  unfold Base64.EncodeToString. intros Hlen H.
  apply Encode_inj; [done|].
  by rewrite <- (list_byte_of_string_of_list_byte (Base64.Encode l1)), H,
    list_byte_of_string_of_list_byte.
Qed.

(** ** The secret path: the claims *)

Lemma rand_Read_full (src : list byte) (n : nat) :
  n ≤ length src →
  rand_Read src (replicate n "000"%byte) = (take n src, None).
Proof.
  intros Hn. unfold rand_Read. rewrite length_replicate.
  rewrite Nat.min_l by done. rewrite Nat.ltb_irrefl.
  rewrite drop_ge by (by rewrite length_replicate). by rewrite app_nil_r.
Qed.

Lemma rand_Read_short (src : list byte) (n : nat) :
  length src < n →
  (rand_Read src (replicate n "000"%byte)).2 = Some "unexpected EOF".
Proof.
  intros Hn. unfold rand_Read. rewrite length_replicate. simpl.
  rewrite Nat.min_r by lia. by destruct (Nat.ltb_spec (length src) n); [|lia].
Qed.

(** C6. [main] asks the random source for 32 bytes.  When the source
    delivers them, the path is [/] followed by their URL-safe base64
    encoding: always 44 characters, 43 from the alphabet
    [A-Z a-z 0-9 - _] followed by exactly one [=], and two different
    runs of 32 bytes never give the same token.  When the source
    delivers fewer than 32 bytes, [main] logs the error and ends with
    status 1. *)
Theorem secret_path_token (env : Env) (srv : Server.t)
    (ls : list Server.label) (other : list byte) :
  start env = Listening srv →
  let randomBytes := take 32 (entropy env) in
  length randomBytes = 32 ∧
  rand_Read (entropy env) (replicate 32 "000"%byte) = (randomBytes, None) ∧
  ERandRead 32 ∈ Server.trace srv ∧
  Server.path srv = "/" +:+ Base64.EncodeToString randomBytes ∧
  String.length (Base64.EncodeToString randomBytes) = 44 ∧
  (∃ token,
     Base64.Encode randomBytes = token ++ [Base64.padChar] ∧
     length token = 43 ∧
     Forall (λ b, Base64.unreserved b = true) token ∧
     Base64.unreserved Base64.padChar = false) ∧
  (length other = 32 →
   Base64.EncodeToString other = Base64.EncodeToString randomBytes →
   other = randomBytes) ∧
  (∀ env' tr c,
     read_content env' = (tr, Some c) → 0 < Slice.len c →
     length (entropy env') < 32 →
     start env'
       = Exited (tr ++ [ENewStore c; ERandRead 32;
                        ELog "failed to generate random bytes: unexpected EOF";
                        EExit 1]) ∧
     exit_status (main env' ls) = Some 1).
Proof.
  intros Hstart randomBytes.
  destruct (start_listening _ _ Hstart) as (tr & c & Hrc & Hc & Hent & Hsrv & _).
  assert (length randomBytes = 32) as Hlen.
  { unfold randomBytes. rewrite length_take. lia. }
  split; [done|]. split; [by apply rand_Read_full|].
  split; [|split; [|split; [|split; [|split]]]].
  - rewrite Hsrv. cbn [Server.init Server.trace].
    apply elem_of_app. right. do 1 apply list_elem_of_further.
    apply list_elem_of_here.
  - by rewrite Hsrv.
  - unfold Base64.EncodeToString.
    by rewrite string_of_list_byte_length, Encode_length, Hlen.
  - destruct (Encode_shape randomBytes) as (token & Htok & Hall);
      [by rewrite Hlen|].
    exists token. split; [done|]. split; [|by split].
    pose proof (Encode_length randomBytes) as HL.
    rewrite Htok, length_app, Hlen in HL.
    change (Base64.EncodedLen 32) with 44 in HL. cbn [length] in HL. lia.
  - intros Ho. apply EncodeToString_inj. lia.
  - intros env' tr' c' Hrc' Hc' Hshort.
    assert (start env'
            = Exited (tr' ++ [ENewStore c'; ERandRead 32;
                              ELog "failed to generate random bytes: unexpected EOF";
                              EExit 1])) as Hs.
    { unfold start. rewrite Hrc'.
      destruct (Nat.eqb_spec (Slice.len c') 0); [lia|].
      pose proof (rand_Read_short (entropy env') 32 Hshort) as Hr.
      destruct (rand_Read _ _) as [bytes err]. simpl in Hr. subst err.
      by rewrite <- !app_assoc. }
    split; [done|]. unfold main. rewrite Hs. unfold exit_status.
    by rewrite (last_app tr' [ENewStore c'; ERandRead 32; ELog _; EExit 1]).
Qed.

Lemma secret_path_token_witness :
  start env_hello = Listening srv_hello ∧
  Server.path srv_hello
    = "/" +:+ Base64.EncodeToString (take 32 (entropy env_hello)).
Proof.
  assert (start env_hello = Listening srv_hello) as Hstart
    by (vm_compute; reflexivity).
  split; [exact Hstart|].
  exact (proj1 (proj2 (proj2 (proj2
    (secret_path_token env_hello srv_hello [] [] Hstart))))).
Defined.

Example starved_source_fatal :
  main env_starved race_hello
  = [EStat; EReadAll; ENewStore (Some hello); ERandRead 32;
     ELog "failed to generate random bytes: unexpected EOF"; EExit 1].
Proof. reflexivity. Qed.

(* ================================================================= *)
(** * Further properties of the code *)

(** ** [get] and the handler, called one after the other *)

(** X1. Whatever the first call of [get] returned, the store it leaves
    is released and unlocked, and every further call returns nil and
    leaves that store as it is. *)
Theorem get_second_call_nil (s s1 : noteStore) (r : Slice.t) :
  get s = Some (r, s1) →
  once s1 = true ∧ mu s1 = false ∧ get s1 = Some (Slice.nil, s1).
Proof.
  rewrite get_spec. destruct s as [c [] []]; intros H; simplify_eq/=; done.
Qed.

Lemma get_second_call_nil_witness :
  get (newNoteStore (Some hello))
    = Some (Some hello, {| content := None; once := true; mu := false |}) ∧
  get {| content := None; once := true; mu := false |}
    = Some (Slice.nil, {| content := None; once := true; mu := false |}).
Proof.
  assert (get (newNoteStore (Some hello))
          = Some (Some hello, {| content := None; once := true; mu := false |}))
    as H by reflexivity.
  split; [exact H|].
  exact (proj2 (proj2 (get_second_call_nil _ _ _ H))).
Defined.

(** X2. Two requests served one after the other: whatever the first one
    got, the second is answered with the 404 of [http.NotFound], does
    not execute [close(done)] and changes neither the store nor the
    channel. *)
Theorem handler_second_request_404 (s : noteStore) (d : bool) (r1 : handled) :
  handler s d = Some r1 →
  ∃ r2,
    handler (h_store r1) (h_done r1) = Some r2 ∧
    h_response r2 = NotFound newResponse ∧
    status (h_response r2) = Some 404 ∧
    h_store r2 = h_store r1 ∧ h_done r2 = h_done r1 ∧
    h_closes r2 = 0 ∧ h_panicked r2 = false.
Proof.
  unfold handler. rewrite get_spec.
  destruct s as [[bytes|] [] []], d; intros H; simplify_eq/=;
    eexists; (split; [reflexivity|]); done.
Qed.

Lemma handler_second_request_404_witness :
  ∃ r1 r2,
    handler (newNoteStore (Some hello)) false = Some r1 ∧
    status (h_response r1) = Some 200 ∧
    handler (h_store r1) (h_done r1) = Some r2 ∧
    status (h_response r2) = Some 404.
Proof.
  eexists. 
  destruct (handler_second_request_404 (newNoteStore (Some hello)) false _
              eq_refl) as (r2 & H2 & _ & H404 & _).
  exists r2. split; [reflexivity|]. split; [reflexivity|].
  split; [exact H2|exact H404].
Defined.



(** ** What the server adds to the trace *)

(** Every step appends to the trace, and only effects of the part of
    [main] after the listener, or log lines. *)
Ltac emitted :=
  repeat (apply Forall_cons; split; [first [by left|by right; eexists]|]);
  by apply Forall_nil.

Lemma step_emits (l : Server.label) (s s' : Server.t) :
  Server.step l s = Some s' →
  ∃ es, Server.trace s' = Server.trace s ++ es ∧
        Forall (λ e, late e = true ∨ ∃ m, e = ELog m) es.
Proof.
  unfold Server.step. destruct (Server.alive s); [|done].
  assert (∃ es, Server.trace s = Server.trace s ++ es ∧
                Forall (λ e, late e = true ∨ ∃ m, e = ELog m) es)
    as Hsame by (exists []; by rewrite app_nil_r).
  destruct l as [|r|[]|[e|]|e| |i|sig]; intros H.
  - unfold Server.main_step in H.
    destruct (Server.pc s); simplify_eq; simpl;
      (eexists; split; [reflexivity|]); emitted.
  - destruct (Server.pc s); try done.
    destruct (getOutboundIP r); simplify_eq; simpl.
    + eexists; split; [reflexivity|]. emitted.
    + rewrite <- app_assoc. eexists; split; [reflexivity|].
      emitted.
  - destruct (Server.pc s); try done.
    by destruct (Server.done s); simplify_eq.
  - by destruct (Server.pc s), (Server.stop s); simplify_eq.
  - by destruct (Server.pc s); simplify_eq.
  - destruct (Server.pc s); try done.
    destruct (forallb _ _); simplify_eq; simpl.
    eexists; split; [reflexivity|]. emitted.
  - destruct (Server.accepting s); simplify_eq; simpl.
    eexists; split; [reflexivity|]. emitted.
  - by destruct (Server.accepting s); simplify_eq.
  - unfold Server.handler_move in H.
    destruct (Server.handlers s !! i); simplify_eq/=.
    by destruct (handler_step _ _ _) as [[[??]?]|]; simplify_eq/=.
  - destruct (Server.notified s); [|done].
    by destruct (_ <? _); simplify_eq.
Qed.

Lemma run_emits (ls : list Server.label) (s : Server.t) :
  ∃ es, Server.trace (Server.run ls s) = Server.trace s ++ es ∧
        Forall (λ e, late e = true ∨ ∃ m, e = ELog m) es.
Proof.
  revert s. induction ls as [|l ls IH]; intros s.
  { exists []. by rewrite app_nil_r. }
  rewrite run_cons. destruct (Server.step l s) as [s'|] eqn:Hs; simpl; [|done].
  destruct (step_emits _ _ _ Hs) as (es1 & H1 & HF1).
  destruct (IH s') as (es2 & H2 & HF2).
  exists (es1 ++ es2). rewrite H2, H1, <- app_assoc. split; [done|].
  by apply Forall_app.
Qed.

(** ** Where the content comes from *)

Lemma list_byte_of_string_length (s : string) :
  length (list_byte_of_string s) = String.length s.
Proof.
  unfold list_byte_of_string. induction s as [|a s IH]; simpl; [done|].
  by rewrite IH.
Qed.

Lemma string_length_app (s t : string) :
  String.length (s +:+ t) = String.length s + String.length t.
Proof. induction s as [|a s IH]; simpl; [done|]. by rewrite IH. Qed.

(** [strings.Join] gives the empty string only for no element or for
    one empty element. *)
Lemma concat_empty (l : list string) :
  String.concat " " l = "" ↔ l = [] ∨ l = [""].
Proof.
  split.
  - destruct l as [|x [|y l]]; simpl; [by left|intros ->; by right|].
    intros H. apply (f_equal String.length) in H.
    rewrite string_length_app in H. simpl in H. lia.
  - by intros [-> | ->].
Qed.

(** X4. On a terminal with arguments the content is the arguments after
    the program name joined by single spaces, and standard input is not
    read.  The content is empty only when the one argument is the empty
    string: then [main] ends with status 1 and [no content provided];
    in every other case a store is built around the joined text. *)
Theorem args_content (env : Env) (ls : list Server.label) (mode : Z) :
  stdin_stat env = Ok mode → Z.land mode ModeCharDevice ≠ 0%Z →
  2 ≤ length (args env) →
  let text := String.concat " " (tail (args env)) in
  read_content env = ([EStat], Some (Slice.of_string text)) ∧
  Slice.len (Slice.of_string text) = String.length text ∧
  (EReadAll ∉ main env ls) ∧
  (tail (args env) = [""] →
   main env ls = [EStat; ELog "no content provided"; EExit 1]) ∧
  (tail (args env) ≠ [""] →
   ENewStore (Slice.of_string text) ∈ main env ls).
Proof.
  intros Hstat Hmode Hargs text.
  assert (read_content env = ([EStat], Some (Slice.of_string text))) as Hrc.
  { unfold read_content. rewrite Hstat.
    destruct (Z.eqb_spec (Z.land mode ModeCharDevice) 0); [done|].
    by destruct (Nat.ltb_spec (length (args env)) 2); [lia|]. }
  assert (Slice.len (Slice.of_string text) = String.length text) as Hlen
    by apply list_byte_of_string_length.
  split; [done|]. split; [done|].
  assert (tail (args env) ≠ []) as Hne.
  { destruct (args env) as [|? [|??]]; simpl in *; [lia|lia|done]. }
  assert (∀ srv, Server.trace srv
                 = [EStat; ENewStore (Slice.of_string text); ERandRead 32;
                    ENewMux (Server.path srv); EListen] →
            (EReadAll ∉ Server.trace (Server.run ls srv)) ∧
            ENewStore (Slice.of_string text)
              ∈ Server.trace (Server.run ls srv)) as Hrun.
  { intros srv Htr. destruct (run_emits ls srv) as (es & -> & Hes).
    rewrite Htr. split.
    - intros Hin. apply elem_of_app in Hin as [Hin|Hin].
      + by repeat (apply elem_of_cons in Hin as [?|Hin]; [done|]);
          apply elem_of_nil in Hin.
      + apply (proj1 (Forall_forall _ _) Hes) in Hin as [?|[? ?]]; done.
    - apply elem_of_app. left. apply list_elem_of_further, list_elem_of_here. }
  unfold main, start. rewrite Hrc.
  destruct (Nat.eqb_spec (Slice.len (Slice.of_string text)) 0) as [H0|H0].
  - assert (tail (args env) = [""]) as Hempty.
    { rewrite Hlen in H0.
      assert (text = "") as Ht by (by destruct text).
      apply concat_empty in Ht as [?|?]; done. }
    split; [|done]. simpl.
    intros Hin. by repeat (apply elem_of_cons in Hin as [?|Hin]; [done|]);
      apply elem_of_nil in Hin.
  - assert (tail (args env) ≠ [""]) as Hfull.
    { intros Heq. apply H0. rewrite Hlen. unfold text. by rewrite Heq. }
    destruct (rand_Read (entropy env) (replicate 32 "000"%byte))
      as [bytes [e|]].
    + simpl. split; [|split; [done|]].
      * intros Hin. by repeat (apply elem_of_cons in Hin as [?|Hin]; [done|]);
          apply elem_of_nil in Hin.
      * intros _. apply list_elem_of_further, list_elem_of_here.
    + destruct (listen env) as [port|e].
      * match goal with
        | |- context [Server.run ls ?srv] =>
            destruct (Hrun srv eq_refl) as [H1 H2]
        end.
        split; [done|]. split; [done|]. by intros _.
      * simpl. split; [|split; [done|]].
        -- intros Hin.
           by repeat (apply elem_of_cons in Hin as [?|Hin]; [done|]);
             apply elem_of_nil in Hin.
        -- intros _. apply list_elem_of_further, list_elem_of_here.
Qed.

Lemma args_content_witness :
  stdin_stat env_two_empty = Ok ModeCharDevice ∧
  Z.land ModeCharDevice ModeCharDevice ≠ 0%Z ∧
  2 ≤ length (args env_two_empty) ∧
  ENewStore (Slice.of_string " ") ∈ main env_two_empty race_hello.
Proof.
  assert (Z.land ModeCharDevice ModeCharDevice ≠ 0%Z) as H by (by vm_compute).
  assert (2 ≤ length (args env_two_empty)) as H2 by (simpl; lia).
  split; [reflexivity|]. split; [exact H|]. split; [exact H2|].
  apply (proj2 (proj2 (proj2 (proj2
    (args_content env_two_empty race_hello ModeCharDevice eq_refl H H2))))).
  simpl. discriminate.
Defined.

(** ** How start-up can end *)

Lemma exit_status_snoc (tr : list effect) (e : effect) (code : nat) :
  exit_status (tr ++ [e; EExit code]) = Some code.
Proof. unfold exit_status. by rewrite (last_app tr [e; EExit code]). Qed.

Lemma quiet_counts (tr : list effect) :
  Forall (λ e, late e = false) tr →
  count is_serve tr = 0 ∧ List.filter is_shutdown tr = [] ∧
  List.filter is_display tr = [].
Proof.
  induction 1 as [|e tr He _ (IH1 & IH2 & IH3)]; simpl; [done|].
  rewrite IH1, IH2, IH3. by destruct e.
Qed.

(** The traces with which start-up can end the process. *)
Lemma start_exited_shape (env : Env) (tr : list effect) :
  start env = Exited tr →
  count is_serve tr = 0 ∧ List.filter is_shutdown tr = [] ∧
  ((tr = [EStat; EPrintln usage; EExit 0] ∧ exit_status tr = Some 0) ∨
   (∃ pre msg, tr = pre ++ [ELog msg; EExit 1] ∧ exit_status tr = Some 1)).
Proof.
  intros Hstart. unfold start in Hstart.
  destruct (read_content env) as [tr0 [c|]] eqn:Hrc.
  - destruct (read_content_quiet _ _ _ Hrc) as [Hq _].
    destruct (quiet_counts _ Hq) as (H0 & H1 & _).
    destruct (Slice.len c =? 0).
    { simplify_eq. split; [by rewrite count_app, H0|].
      split; [by rewrite filter_shutdown_app, H1|].
      right. eexists _, _. split; [reflexivity|apply exit_status_snoc]. }
    destruct (rand_Read (entropy env) (replicate 32 "000"%byte))
      as [bytes [e|]].
    { simplify_eq. split; [by rewrite !count_app, H0|].
      split; [by rewrite !filter_shutdown_app, H1|].
      right. eexists _, _. split; [reflexivity|apply exit_status_snoc]. }
    destruct (listen env) as [port|e]; [done|]. simplify_eq.
    split; [by rewrite !count_app, H0|].
    split; [by rewrite !filter_shutdown_app, H1|].
    right. exists (((tr0 ++ [ENewStore c]) ++ [ERandRead 32])
                     ++ [ENewMux ("/" +:+ Base64.EncodeToString bytes); EListen]).
    eexists. split; [by rewrite <- !app_assoc|].
    unfold exit_status. by rewrite last_app.
  - simplify_eq. unfold read_content in Hrc.
    destruct (stdin_stat env) as [mode|e].
    + destruct (Z.land mode ModeCharDevice =? 0)%Z.
      * destruct (stdin_data env); simplify_eq. split; [done|]. split; [done|].
        right. by exists [EStat; EReadAll], ("failed to read from stdin: " +:+ e).
      * destruct (length (args env) <? 2); simplify_eq. split; [done|].
        split; [done|]. by left.
    + simplify_eq. split; [done|]. split; [done|].
      right. by exists [EStat], ("failed to stat stdin: " +:+ e).
Qed.

(** X5. When the process ends before the listener is bound, the run is
    over whatever happens around it, [server.Serve] was never started,
    and the status is 0 only for the usage message; every other such
    end is a [log.Fatal]: a log line, then status 1. *)
Theorem start_exit_cases (env : Env) (ls : list Server.label)
    (tr : list effect) :
  start env = Exited tr →
  main env ls = tr ∧
  count is_serve tr = 0 ∧
  ((tr = [EStat; EPrintln usage; EExit 0] ∧ exit_status tr = Some 0) ∨
   (∃ pre msg, tr = pre ++ [ELog msg; EExit 1] ∧ exit_status tr = Some 1)) ∧
  (exit_status tr = Some 0 ↔ tr = [EStat; EPrintln usage; EExit 0]).
Proof.
  intros Hstart. split; [by unfold main; rewrite Hstart|].
  destruct (start_exited_shape _ _ Hstart) as (Hserve & _ & Hcases).
  split; [done|]. split; [done|]. split.
  - intros H0. destruct Hcases as [[? _]|(pre & msg & _ & H1)]; [done|].
    congruence.
  - by intros ->.
Qed.

Lemma start_exit_cases_witness :
  start env_empty = Exited [EStat; EReadAll; ELog "no content provided"; EExit 1] ∧
  main env_empty race_hello
    = [EStat; EReadAll; ELog "no content provided"; EExit 1].
Proof.
  assert (start env_empty
          = Exited [EStat; EReadAll; ELog "no content provided"; EExit 1])
    as H by reflexivity.
  split; [exact H|].
  exact (proj1 (start_exit_cases env_empty race_hello _ H)).
Defined.

(** X6. When the listener cannot be bound, [main] logs the error and
    ends with status 1.  By then the store is built, the random bytes
    are drawn and the route is registered, but no goroutine serves and
    nothing is displayed. *)
Theorem listen_failure_fatal (env : Env) (ls : list Server.label)
    (tr : list effect) (c : Slice.t) (e : string) :
  read_content env = (tr, Some c) → 0 < Slice.len c →
  32 ≤ length (entropy env) → listen env = Err e →
  main env ls
    = tr ++ [ENewStore c; ERandRead 32;
             ENewMux ("/" +:+ Base64.EncodeToString (take 32 (entropy env)));
             EListen; ELog ("failed to create listener: " +:+ e); EExit 1] ∧
  exit_status (main env ls) = Some 1 ∧
  count is_serve (main env ls) = 0 ∧
  count is_display (main env ls) = 0.
Proof.
  intros Hrc Hc Hent Hl.
  assert (main env ls
          = tr ++ [ENewStore c; ERandRead 32;
                   ENewMux ("/" +:+ Base64.EncodeToString (take 32 (entropy env)));
                   EListen; ELog ("failed to create listener: " +:+ e); EExit 1])
    as Hmain.
  { unfold main, start. rewrite Hrc.
    destruct (Nat.eqb_spec (Slice.len c) 0); [lia|].
    rewrite (rand_Read_full (entropy env) 32 Hent), Hl.
    by rewrite <- !app_assoc. }
  destruct (read_content_quiet _ _ _ Hrc) as [Hq _].
  assert (count is_serve tr = 0 ∧ count is_display tr = 0) as [H1 H2].
  { clear -Hq. induction Hq as [|x tr Hx _ [IH1 IH2]]; simpl; [done|].
    rewrite IH1, IH2. by destruct x. }
  rewrite Hmain. split; [done|]. split; [|split].
  - unfold exit_status.
    by rewrite (last_app tr [ENewStore c; ERandRead 32; ENewMux _; EListen;
                             ELog _; EExit 1]).
  - by rewrite count_app, H1.
  - by rewrite count_app, H2.
Qed.

Lemma listen_failure_fatal_witness :
  read_content env_no_listener = ([EStat; EReadAll], Some (Some hello)) ∧
  0 < Slice.len (Some hello) ∧
  32 ≤ length (entropy env_no_listener) ∧
  listen env_no_listener = Err "address already in use" ∧
  exit_status (main env_no_listener race_hello) = Some 1.
Proof.
  assert (0 < Slice.len (Some hello)) as H1 by (simpl; lia).
  assert (32 ≤ length (entropy env_no_listener)) as H2 by (simpl; lia).
  split; [reflexivity|]. split; [exact H1|]. split; [exact H2|].
  split; [reflexivity|].
  exact (proj1 (proj2
    (listen_failure_fatal env_no_listener race_hello [EStat; EReadAll]
       (Some hello) "address already in use" eq_refl H1 H2 eq_refl))).
Defined.

(** X7. When standard input cannot be inspected, or is piped and cannot
    be read, [main] logs the error and ends with status 1 before it
    builds anything; the arguments play no part. *)
Theorem stdin_failure_fatal (env : Env) (ls : list Server.label)
    (e : string) :
  stdin_stat env = Err e ∨
  (∃ mode, stdin_stat env = Ok mode ∧
           Z.land mode ModeCharDevice = 0%Z ∧ stdin_data env = Err e) →
  (main env ls = [EStat; ELog ("failed to stat stdin: " +:+ e); EExit 1] ∨
   main env ls
     = [EStat; EReadAll; ELog ("failed to read from stdin: " +:+ e); EExit 1]) ∧
  exit_status (main env ls) = Some 1 ∧
  count is_construction (main env ls) = 0.
Proof.
  intros [Hstat|(mode & Hstat & Hmode & Hdata)].
  - assert (main env ls
            = [EStat; ELog ("failed to stat stdin: " +:+ e); EExit 1]) as ->.
    { unfold main, start, read_content. by rewrite Hstat. }
    split; [by left|done].
  - assert (main env ls
            = [EStat; EReadAll; ELog ("failed to read from stdin: " +:+ e);
               EExit 1]) as ->.
    { unfold main, start, read_content. by rewrite Hstat, Hmode, Hdata. }
    split; [by right|done].
Qed.

Lemma stdin_failure_fatal_witness :
  stdin_stat (mkEnv (Err "bad file descriptor") (Ok hello) ["qreph"; "x"]
                [] (Ok 4242)) = Err "bad file descriptor" ∧
  exit_status
    (main (mkEnv (Err "bad file descriptor") (Ok hello) ["qreph"; "x"]
             [] (Ok 4242)) race_hello) = Some 1.
Proof.
  split; [reflexivity|].
  exact (proj1 (proj2
    (stdin_failure_fatal
       (mkEnv (Err "bad file descriptor") (Ok hello) ["qreph"; "x"] []
          (Ok 4242))
       race_hello "bad file descriptor" (or_introl eq_refl)))).
Defined.

(** ** More that holds in every reachable state *)

Lemma handler_step_done (s s' : noteStore) (d d' : bool)
    (h h' : handler_frame) :
  handler_step s d h = Some (s', d', h') → d = true → d' = true.
Proof.
  unfold handler_step. intros H ->.
  destruct (hpc h); simplify_eq/=; try done.
  - destruct (gpc (call h)); simplify_eq/=; try done;
      by destruct (get_step _ _) as [[??]|]; simplify_eq/=.
  - by destruct (Slice.is_nil _); simplify_eq.
Qed.

Lemma filter_display_app (l k : list effect) :
  List.filter is_display (l ++ k)
  = List.filter is_display l ++ List.filter is_display k.
Proof. apply List.filter_app. Qed.

(** Steps that leave [main] and the trace alone. *)
Lemma run_inv_same (s0 s s' : Server.t) :
  run_inv s0 s →
  Server.path s' = Server.path s → Server.port s' = Server.port s →
  Server.pc s' = Server.pc s → Server.trace s' = Server.trace s →
  Server.notified s' = Server.notified s →
  (Server.done s = true → Server.done s' = true) →
  run_inv s0 s'.
Proof.
  intros [Hp Hq Hn Hd Hl Hdisp Hd0] Hp' Hq' Hpc Htr Hn' Hd'.
  split; unfold Server.alive; rewrite ?Hp', ?Hq', ?Hpc, ?Htr, ?Hn'; try done.
  destruct (Server.pc s) as [| | | | |[]|[]| |]; auto.
Qed.

Ltac ri_close Hlast :=
  try done; try (intros _; exact Hlast); try (intros ?; simpl in *; lia);
  auto.

Lemma run_inv_step (s0 s s' : Server.t) (l : Server.label) :
  run_inv s0 s → Server.step l s = Some s' → run_inv s0 s'.
Proof.
  intros Hinv Hstep. unfold Server.step in Hstep.
  destruct (Server.alive s) eqn:Halive; [|done].
  pose proof (ri_last _ _ Hinv Halive) as Hlast.
  destruct l as [|r|[]|[e|]|e| |i|sig].
  - (* main *)
    destruct Hinv as [Hp Hq Hn Hd _ Hdisp Hd0].
    unfold Server.main_step in Hstep.
    destruct (Server.pc s) eqn:Hpc; simplify_eq;
      split; unfold Server.alive; srv_simpl;
      rewrite ?filter_display_app, ?last_app; simpl;
      rewrite ?app_nil_r; ri_close Hlast.
    rewrite Hd0 by lia. right. exists ip. unfold Server.url. simpl.
    by rewrite Hp, Hq.
  - (* net.Dial returns *)
    destruct Hinv as [Hp Hq Hn Hd _ Hdisp Hd0].
    destruct (Server.pc s) eqn:Hpc; try done.
    destruct (getOutboundIP r); simplify_eq;
      split; unfold Server.alive; srv_simpl;
      rewrite ?filter_display_app, ?last_app; simpl;
      rewrite ?app_nil_r; ri_close Hlast.
    all: intros _; apply Hd0; simpl; lia.
  - (* select: done *)
    destruct Hinv as [Hp Hq Hn Hd _ Hdisp Hd0].
    destruct (Server.pc s) eqn:Hpc; try done.
    destruct (Server.done s) eqn:Hdone; simplify_eq.
    split; unfold Server.alive; srv_simpl; ri_close Hlast.
  - (* select: stop *)
    destruct Hinv as [Hp Hq Hn Hd _ Hdisp Hd0].
    destruct (Server.pc s) eqn:Hpc; try done;
      try by destruct (Server.stop s).
    destruct (Server.stop s); simplify_eq.
    split; unfold Server.alive; srv_simpl; ri_close Hlast.
  - (* Shutdown fails *)
    destruct Hinv as [Hp Hq Hn Hd _ Hdisp Hd0].
    destruct (Server.pc s) eqn:Hpc; simplify_eq.
    split; unfold Server.alive; srv_simpl; ri_close Hlast.
  - (* Shutdown succeeds *)
    destruct Hinv as [Hp Hq Hn Hd _ Hdisp Hd0].
    destruct (Server.pc s) eqn:Hpc; try done.
    destruct (forallb _ _); simplify_eq.
    split; unfold Server.alive; srv_simpl;
      rewrite ?filter_display_app; simpl; rewrite ?app_nil_r;
      ri_close Hlast.
  - (* Serve fails *)
    destruct Hinv as [Hp Hq Hn Hd _ Hdisp Hd0].
    destruct (Server.accepting s); simplify_eq.
    split; unfold Server.alive; srv_simpl;
      rewrite ?filter_display_app; simpl; rewrite ?app_nil_r;
      ri_close Hlast.
  - (* a request *)
    destruct (Server.accepting s); simplify_eq.
    by apply (run_inv_same s0 s).
  - (* a handler *)
    unfold Server.handler_move in Hstep.
    destruct (Server.handlers s !! i); simplify_eq/=.
    destruct (handler_step _ _ _) as [[[st d] h']|] eqn:Hh; simplify_eq/=.
    apply (run_inv_same s0 s); try done. simpl.
    by eapply handler_step_done.
  - (* a signal *)
    destruct (Server.notified s); [|done].
    destruct (_ <? _); simplify_eq; [|done].
    by apply (run_inv_same s0 s).
Qed.

Lemma run_inv_run (s0 s : Server.t) (ls : list Server.label) :
  run_inv s0 s → run_inv s0 (Server.run ls s).
Proof.
  revert s. induction ls as [|l ls IH]; intros s Hinv; [done|].
  rewrite run_cons. apply IH.
  destruct (Server.step l s) as [s'|] eqn:Hs; simpl; [|done].
  by eapply run_inv_step.
Qed.

Lemma reachable_run_inv (env : Env) (srv0 : Server.t)
    (ls : list Server.label) :
  start env = Listening srv0 → run_inv srv0 (Server.run ls srv0).
Proof.
  intros Hstart. apply run_inv_run.
  destruct (start_listening _ _ Hstart) as (tr & c & Hrc & _ & _ & -> & _).
  destruct (read_content_quiet _ _ _ Hrc) as [Hq _].
  assert (List.filter is_display tr = []) as H0.
  { clear -Hq. induction Hq as [|x tr Hx _ IH]; simpl; [done|].
    rewrite IH. by destruct x. }
  split; simpl; try done.
  - intros _ code. by rewrite last_app.
  - left. by rewrite filter_display_app, H0.
  - intros _. by rewrite filter_display_app, H0.
Qed.

(** ** What is served *)




(** ** After the delivery *)

(** A handler that has finished stays as it is. *)
Lemma finished_kept (l : Server.label) (s s' : Server.t) (i : nat)
    (h : handler_frame) :
  Server.step l s = Some s' →
  Server.handlers s !! i = Some h → finished h = true →
  Server.handlers s' !! i = Some h.
Proof.
  unfold Server.step. destruct (Server.alive s); [|done].
  intros Hstep Hi Hfin.
  destruct l as [|r|[]|[e|]|e| |j|sig].
  - unfold Server.main_step in Hstep.
    by destruct (Server.pc s); simplify_eq.
  - destruct (Server.pc s); try done.
    by destruct (getOutboundIP r); simplify_eq.
  - destruct (Server.pc s); try done.
    by destruct (Server.done s); simplify_eq.
  - by destruct (Server.pc s), (Server.stop s); simplify_eq.
  - by destruct (Server.pc s); simplify_eq.
  - destruct (Server.pc s); try done.
    by destruct (forallb _ _); simplify_eq.
  - by destruct (Server.accepting s); simplify_eq.
  - destruct (Server.accepting s); simplify_eq. simpl.
    by apply lookup_app_l_Some.
  - unfold Server.handler_move in Hstep.
    destruct (Server.handlers s !! j) as [hj|] eqn:Hj; simplify_eq/=.
    destruct (handler_step _ _ hj) as [[[st d] h']|] eqn:Hh; simplify_eq/=.
    destruct (decide (j = i)) as [->|Hne].
    + assert (hj = h) as -> by congruence.
      unfold handler_step in Hh. unfold finished in Hfin.
      by destruct (hpc h).
    + by rewrite list_lookup_insert_ne.
  - destruct (Server.notified s); [|done].
    by destruct (_ <? _); simplify_eq.
Qed.

Lemma finished_kept_run (ls : list Server.label) (s : Server.t) (i : nat)
    (h : handler_frame) :
  Server.handlers s !! i = Some h → finished h = true →
  Server.handlers (Server.run ls s) !! i = Some h.
Proof.
  revert s. induction ls as [|l ls IH]; intros s Hi Hfin; [done|].
  rewrite run_cons. apply IH; [|done].
  destruct (Server.step l s) as [s'|] eqn:Hs; simpl; [|done].
  by eapply finished_kept.
Qed.

(** Where [done] is closed, a handler has returned with the note
    written. *)
Lemma done_has_deliverer (c : Slice.t) (s : Server.t) :
  srv_inv c s → Server.done s = true →
  ∃ i h, Server.handlers s !! i = Some h ∧ hpc h = HReturn ∧
         note h = c ∧ resp h = note_response c ∧ delivered h = true.
Proof.
  intros Hinv Hd. pose proof (si_delivered _ _ Hinv) as Hcount.
  rewrite Hd in Hcount.
  destruct (count_pos_lookup delivered (Server.handlers s))
    as (i & h & Hi & Hdel); [simpl in Hcount; lia|].
  exists i, h. split; [done|].
  pose proof (proj1 (Forall_lookup _ _) (si_handlers _ _ Hinv) _ _ Hi) as Hh.
  unfold delivered in Hdel. unfold handler_inv in Hh.
  destruct (hpc h) eqn:Hpc; try done.
  destruct Hh as (_ & _ & [[Hn _]|[Hn Hr]]); [by rewrite Hn in Hdel|].
  unfold delivered. by rewrite Hpc.
Qed.

(** X9. Once [done] is closed, every request that arrives later is
    answered with 404 when its handler returns, whatever the
    interleaving: the note is gone for good. *)
Theorem later_requests_404 (env : Env) (srv0 : Server.t)
    (ls more : list Server.label) (j : nat) (h : handler_frame) :
  start env = Listening srv0 →
  Server.done (Server.run ls srv0) = true →
  length (Server.handlers (Server.run ls srv0)) ≤ j →
  Server.handlers (Server.run (ls ++ more) srv0) !! j = Some h →
  hpc h = HReturn →
  note h = Slice.nil ∧ resp h = NotFound newResponse ∧
  status (resp h) = Some 404.
Proof.
  intros Hstart Hdone Hlen Hj Hpc. rewrite run_app in Hj.
  destruct (reachable_inv env srv0 ls Hstart) as (c & Hc & _ & Hinv).
  pose proof (len_pos_not_nil _ Hc) as Hnil.
  destruct (done_has_deliverer _ _ Hinv Hdone) as (i & hi & Hi & Hpci & Hni & _ & Hdel).
  assert (finished hi = true) as Hfin by (by unfold finished; rewrite Hpci).
  pose proof (finished_kept_run more _ _ _ Hi Hfin) as Hi'.
  pose proof (srv_inv_run c more _ Hnil Hinv) as Hinv'.
  pose proof (proj1 (Forall_lookup _ _) (si_handlers _ _ Hinv')) as Hall.
  pose proof (Hall _ _ Hj) as Hh. unfold handler_inv in Hh.
  rewrite Hpc in Hh. destruct Hh as (_ & _ & [[Hn Hr]|[Hn Hr]]).
  { by rewrite Hr. }
  exfalso. apply lookup_lt_Some in Hi.
  assert (i = j) as Heq; [|lia].
  eapply (count_unique winner
            (call <$> Server.handlers (Server.run more (Server.run ls srv0)))).
  - pose proof (inv_winner _ _ (si_pool _ _ Hinv')) as Hw. simpl in Hw.
    rewrite Hw. apply b2n_le_1.
  - by rewrite list_lookup_fmap, Hi'.
  - apply (on_close_path_winner c); [done|by apply Hall with i|].
    unfold on_close_path. by rewrite Hpci, Hni, Hnil.
  - by rewrite list_lookup_fmap, Hj.
  - apply (on_close_path_winner c); [done|by apply Hall with j|].
    unfold on_close_path. by rewrite Hpc, Hn, Hnil.
Qed.

Lemma later_requests_404_witness :
  start env_hello = Listening srv_hello ∧
  Server.done (Server.run deliver_hello srv_hello) = true ∧
  length (Server.handlers (Server.run deliver_hello srv_hello)) ≤ 1 ∧
  ∃ h,
    Server.handlers (Server.run (deliver_hello ++ late_hello) srv_hello) !! 1
      = Some h ∧
    hpc h = HReturn ∧ status (resp h) = Some 404.
Proof.
  assert (start env_hello = Listening srv_hello) as Hstart
    by (vm_compute; reflexivity).
  assert (length (Server.handlers (Server.run deliver_hello srv_hello)) ≤ 1)
    as Hlen by (vm_compute; lia).
  split; [exact Hstart|]. split; [reflexivity|]. split; [exact Hlen|].
  eexists. split; [vm_compute; reflexivity|]. split; [reflexivity|].
  exact (proj2 (proj2
    (later_requests_404 env_hello srv_hello deliver_hello late_hello 1 _
       Hstart eq_refl Hlen ltac:(vm_compute; reflexivity) eq_refl))).
Defined.

(** ** Without a request *)

Lemma step_without_request (l : Server.label) (s s' : Server.t) :
  Server.step l s = Some s' → is_request l = false →
  Server.handlers s = [] →
  Server.handlers s' = [] ∧ Server.store s' = Server.store s ∧
  Server.done s' = Server.done s ∧ Server.closes s' = Server.closes s.
Proof.
  unfold Server.step. destruct (Server.alive s); [|done].
  intros Hstep Hl Hnone.
  destruct l as [|r|[]|[e|]|e| |j|sig]; try done.
  - unfold Server.main_step in Hstep.
    by destruct (Server.pc s); simplify_eq.
  - destruct (Server.pc s); try done.
    by destruct (getOutboundIP r); simplify_eq.
  - destruct (Server.pc s); try done.
    by destruct (Server.done s) eqn:?; simplify_eq.
  - by destruct (Server.pc s), (Server.stop s); simplify_eq.
  - by destruct (Server.pc s); simplify_eq.
  - destruct (Server.pc s); try done.
    by destruct (forallb _ _); simplify_eq.
  - by destruct (Server.accepting s); simplify_eq.
  - unfold Server.handler_move in Hstep. by rewrite Hnone in Hstep.
  - destruct (Server.notified s); [|done].
    by destruct (_ <? _); simplify_eq.
Qed.

(** X10. As long as no request for the secret path arrives, nothing
    touches the store: it still holds the content unreleased, [done]
    stays open, [close(done)] has not run, and [main] can leave the
    [select] only through the interrupt. *)
Theorem no_request_no_release (env : Env) (srv0 : Server.t)
    (ls : list Server.label) :
  start env = Listening srv0 →
  forallb (λ l, negb (is_request l)) ls = true →
  let srv := Server.run ls srv0 in
  Server.handlers srv = [] ∧
  Server.store srv = Server.store srv0 ∧
  once (Server.store srv) = false ∧
  0 < Slice.len (content (Server.store srv)) ∧
  Server.done srv = false ∧ Server.closes srv = 0 ∧
  (∀ k, Server.pc srv = MShutdown k ∨ Server.pc srv = MWait k →
        k = Interrupted).
Proof.
  intros Hstart Hls srv.
  assert (Server.handlers srv = [] ∧ Server.store srv = Server.store srv0 ∧
          Server.done srv = Server.done srv0 ∧
          Server.closes srv = Server.closes srv0) as (Hh & Hs & Hd & Hc).
  { unfold srv. clear srv.
    assert (Server.handlers srv0 = [] → Server.handlers (Server.run ls srv0) = []
            ∧ Server.store (Server.run ls srv0) = Server.store srv0
            ∧ Server.done (Server.run ls srv0) = Server.done srv0
            ∧ Server.closes (Server.run ls srv0) = Server.closes srv0) as H.
    { clear Hstart. revert srv0.
      induction ls as [|l ls IH]; intros s Hnone; [done|].
      simpl in Hls. apply andb_prop in Hls as [Hl Hls].
      apply negb_true_iff in Hl. rewrite run_cons.
      destruct (Server.step l s) as [s'|] eqn:Hstep; simpl; [|by apply IH].
      destruct (step_without_request _ _ _ Hstep Hl Hnone)
        as (H1 & H2 & H3 & H4).
      destruct (IH Hls s' H1) as (? & ? & ? & ?).
      repeat split; congruence. }
    apply H. clear H.
    destruct (start_listening _ _ Hstart) as (? & ? & _ & _ & _ & -> & _).
    done. }
  destruct (start_listening _ _ Hstart) as (tr & c & _ & Hlen & _ & Hsrv & _).
  rewrite Hs, Hd, Hc. rewrite Hsrv. simpl.
  repeat (split; [done|]).
  intros k Hk.
  pose proof (ri_delivered _ _ (reachable_run_inv env srv0 ls Hstart)) as Hdel.
  fold srv in Hdel. rewrite Hd, Hsrv in Hdel. simpl in Hdel.
  destruct k; [|done]. by destruct Hk as [Hk|Hk]; rewrite Hk in Hdel.
Qed.

Lemma no_request_no_release_witness :
  start env_hello = Listening srv_hello ∧
  forallb (λ l, negb (is_request l))
    (Server.LMain :: to_select_hello ++ [Server.LSignal SIGINT;
                                          Server.LSelect Interrupted]) = true ∧
  Server.store
    (Server.run (Server.LMain :: to_select_hello ++
                   [Server.LSignal SIGINT; Server.LSelect Interrupted])
       srv_hello)
  = newNoteStore (Some hello).
Proof.
  assert (start env_hello = Listening srv_hello) as Hstart
    by (vm_compute; reflexivity).
  split; [exact Hstart|]. split; [reflexivity|].
  exact (proj1 (proj2
    (no_request_no_release env_hello srv_hello
       (Server.LMain :: to_select_hello ++
          [Server.LSignal SIGINT; Server.LSelect Interrupted])
       Hstart eq_refl))).
Defined.

(** ** Delivery and shutdown *)



(** X12. The exit status of the program is 0 or 1.  It is 0 only after
    the usage message, or after exactly one call of [Shutdown] with the
    timeout of five seconds; it is 1 only when [Shutdown] was never
    called. *)
Theorem exit_status_cases (env : Env) (ls : list Server.label) (code : nat) :
  exit_status (main env ls) = Some code →
  (code = 0 ∧
   (main env ls = [EStat; EPrintln usage; EExit 0] ∨
    List.filter is_shutdown (main env ls) = [EShutdown shutdownTimeout])) ∨
  (code = 1 ∧ List.filter is_shutdown (main env ls) = []).
Proof.
  unfold main. destruct (start env) as [tr|srv0] eqn:Hstart.
  - intros Hcode.
    destruct (start_exited_shape _ _ Hstart) as (_ & Hsh & [[Htr H0]|Hfatal]).
    + left. split; [congruence|by left].
    + destruct Hfatal as (pre & msg & _ & H1). right. split; [congruence|done].
  - intros Hcode.
    destruct (reachable_inv env srv0 ls Hstart) as (c & _ & _ & Hinv).
    pose proof (reachable_run_inv env srv0 ls Hstart) as Hrun.
    set (srv := Server.run ls srv0) in *.
    destruct (Server.alive srv) eqn:Halive.
    { exfalso. unfold exit_status in Hcode.
      destruct (last (Server.trace srv)) as [[]|] eqn:Hlast; try done.
      simplify_eq. by apply (ri_last _ _ Hrun Halive code). }
    unfold Server.alive in Halive.
    destruct (Server.pc srv) as [| | | | | | | |code'] eqn:Hpc; try done.
    destruct (si_exit _ _ Hinv code' Hpc) as [Hlast Hcases].
    unfold exit_status in Hcode. rewrite Hlast in Hcode. simplify_eq.
    pose proof (si_shutdown _ _ Hinv) as Hsh. rewrite Hpc in Hsh.
    unfold Server.shutdown_calls in Hsh.
    destruct Hcases as [-> | ->]; [left|right]; (split; [done|]).
    + by right.
    + done.
Qed.

Lemma exit_status_cases_witness :
  exit_status
    (main env_hello
       (deliver_hello ++ to_select_hello ++
        [Server.LSelect Delivered; Server.LMain;
         Server.LShutdownReturns (Some "context deadline exceeded");
         Server.LMain])) = Some 0 ∧
  List.filter is_shutdown
    (main env_hello
       (deliver_hello ++ to_select_hello ++
        [Server.LSelect Delivered; Server.LMain;
         Server.LShutdownReturns (Some "context deadline exceeded");
         Server.LMain])) = [EShutdown shutdownTimeout].
Proof.
  assert (exit_status
            (main env_hello
               (deliver_hello ++ to_select_hello ++
                [Server.LSelect Delivered; Server.LMain;
                 Server.LShutdownReturns (Some "context deadline exceeded");
                 Server.LMain])) = Some 0) as H
    by (vm_compute; reflexivity).
  split; [exact H|].
  destruct (exit_status_cases _ _ _ H) as [[_ [Hu|Hs]]|[H1 _]].
  - vm_compute in Hu. discriminate Hu.
  - exact Hs.
  - discriminate H1.
Defined.

(** ** The process always comes to an end *)

(** X13. Once [main] waits in the [select], one signal is enough to end
    the process: the signal reaches [stop], [main] takes it, calls
    [Shutdown] and exits with status 0, even when [Shutdown] fails and
    whatever the handlers are doing.  The same holds for the [done]
    case once [done] is closed. *)
Theorem select_terminates (env : Env) (srv0 : Server.t)
    (ls : list Server.label) (sig : signal) (e : string) :
  start env = Listening srv0 →
  Server.pc (Server.run ls srv0) = MSelect →
  let srv := Server.run ls srv0 in
  Server.exit_code
    (Server.run [Server.LSignal sig; Server.LSelect Interrupted; Server.LMain;
                 Server.LShutdownReturns (Some e); Server.LMain] srv)
  = Some 0 ∧
  (Server.done srv = true →
   Server.exit_code
     (Server.run [Server.LSelect Delivered; Server.LMain;
                  Server.LShutdownReturns (Some e); Server.LMain] srv)
   = Some 0).
Proof.
  intros Hstart Hpc srv. fold srv in Hpc.
  pose proof (ri_notified _ _ (reachable_run_inv env srv0 ls Hstart)) as Hn.
  fold srv in Hn. rewrite Hpc in Hn.
  assert (∀ s k, Server.pc s = MShutdown k →
            Server.exit_code
              (Server.run [Server.LMain; Server.LShutdownReturns (Some e);
                           Server.LMain] s) = Some 0) as Hrest.
  { intros s k Hs. rewrite run_cons.
    assert (Server.step Server.LMain s
            = Some (Server.set_pc (MWait k)
                      (Server.set_accepting false
                         (Server.emit [EShutdown shutdownTimeout] s)))) as ->.
    { unfold Server.step, Server.alive, Server.main_step. by rewrite Hs. }
    reflexivity. }
  split.
  - rewrite run_cons.
    assert (∃ s1 x q, Server.step (Server.LSignal sig) srv = Some s1 ∧
                      Server.pc s1 = MSelect ∧ Server.stop s1 = x :: q)
      as (s1 & x & q & Hs1 & Hp1 & Hq1).
    { unfold Server.step, Server.alive. rewrite Hpc, Hn.
      destruct (Server.stop srv) as [|x q] eqn:Hq; simpl.
      - eexists _, sig, []. split; [done|]. by split.
      - by exists srv, x, q. }
    rewrite Hs1. simpl default. rewrite run_cons.
    assert (Server.step (Server.LSelect Interrupted) s1
            = Some (Server.set_pc (MShutdown Interrupted)
                      (Server.receive x (Server.set_stop q s1)))) as ->.
    { unfold Server.step, Server.alive. by rewrite Hp1, Hq1. }
    simpl default. by apply Hrest with Interrupted.
  - intros Hd. rewrite run_cons.
    assert (Server.step (Server.LSelect Delivered) srv
            = Some (Server.set_pc (MShutdown Delivered) srv)) as ->.
    { unfold Server.step, Server.alive. by rewrite Hpc, Hd. }
    simpl default. by apply Hrest with Delivered.
Qed.

Lemma select_terminates_witness :
  start env_hello = Listening srv_hello ∧
  Server.pc (Server.run (Server.LMain :: to_select_hello) srv_hello)
    = MSelect ∧
  Server.exit_code
    (Server.run [Server.LSignal SIGTERM; Server.LSelect Interrupted;
                 Server.LMain; Server.LShutdownReturns (Some "timeout");
                 Server.LMain]
       (Server.run (Server.LMain :: to_select_hello) srv_hello))
  = Some 0.
Proof.
  assert (start env_hello = Listening srv_hello) as Hstart
    by (vm_compute; reflexivity).
  split; [exact Hstart|]. split; [reflexivity|].
  exact (proj1 (select_terminates env_hello srv_hello
                  (Server.LMain :: to_select_hello) SIGTERM "timeout"
                  Hstart eq_refl)).
Defined.

(** ** Handlers always finish *)

Lemma handler_step_rank (s s' : noteStore) (d d' : bool)
    (h h' : handler_frame) :
  handler_step s d h = Some (s', d', h') →
  handler_rank h < handler_rank h'.
Proof.
  unfold handler_step, handler_rank. intros H.
  destruct (hpc h) eqn:Hpc; simplify_eq/=; try lia.
  - destruct (gpc (call h)) eqn:Hg; simplify_eq/=; try lia;
      destruct (get_step s (call h)) as [[s1 f1]|] eqn:Hgs; simplify_eq/=;
      apply get_step_rank in Hgs; rewrite Hg in Hgs; simpl in Hgs; lia.
  - destruct (Slice.is_nil _); simplify_eq/=; lia.
  - destruct (close d); simplify_eq/=; lia.
Qed.

Lemma handler_rank_bound (h : handler_frame) : handler_rank h ≤ 11.
Proof.
  unfold handler_rank. destruct (hpc h); try lia.
  destruct (gpc (call h)); simpl; lia.
Qed.

Lemma handlers_work_bound (hs : list handler_frame) :
  handlers_work hs ≤ 11 * length hs.
Proof.
  induction hs as [|h hs IH]; simpl; [lia|].
  pose proof (handler_rank_bound h). lia.
Qed.

Lemma handlers_work_insert (hs : list handler_frame) (i : nat)
    (h h' : handler_frame) :
  hs !! i = Some h →
  handlers_work (<[i := h']> hs) + handler_rank h
  = handlers_work hs + handler_rank h'.
Proof.
  revert i. induction hs as [|a hs IH]; intros [|i] Hi; simplify_eq/=; [lia|].
  specialize (IH _ Hi). lia.
Qed.

(** A step of a handler moves this handler on and leaves [main], the
    trace and the number of handlers alone. *)
Lemma handler_move_effect (i : nat) (s s' : Server.t) :
  Server.handler_move i s = Some s' →
  Server.pc s' = Server.pc s ∧ Server.trace s' = Server.trace s ∧
  length (Server.handlers s') = length (Server.handlers s) ∧
  handlers_work (Server.handlers s) < handlers_work (Server.handlers s').
Proof.
  unfold Server.handler_move. intros H.
  destruct (Server.handlers s !! i) as [h|] eqn:Hi; simplify_eq/=.
  destruct (handler_step _ _ h) as [[[st d] h']|] eqn:Hh; simplify_eq/=.
  rewrite length_insert. repeat (split; [done|]).
  pose proof (handler_step_rank _ _ _ _ _ _ Hh).
  pose proof (handlers_work_insert _ _ _ h' Hi). lia.
Qed.

Lemma not_all_finished (hs : list handler_frame) :
  forallb finished hs = false →
  ∃ i h, hs !! i = Some h ∧ finished h = false.
Proof.
  induction hs as [|a hs IH]; simpl; [done|].
  destruct (finished a) eqn:Ha; simpl.
  - intros H. destruct (IH H) as (i & h & Hi & Hf). by exists (S i), h.
  - intros _. by exists 0, a.
Qed.

(** While a handler is unfinished, some handler can move: none of them
    waits for a mutex that is never released. *)
Lemma handlers_deadlock_free (c : Slice.t) (s : Server.t) :
  srv_inv c s → forallb finished (Server.handlers s) = false →
  ∃ i s', Server.handler_move i s = Some s'.
Proof.
  intros Hinv Hnot.
  pose proof (proj1 (Forall_lookup _ _) (si_handlers _ _ Hinv)) as Hall.
  pose proof (inv_mutex _ _ (si_pool _ _ Hinv)) as Hmx. simpl in Hmx.
  assert (∀ i h, Server.handlers s !! i = Some h →
            hpc h ≠ HGet → holds (call h) = false) as Hout.
  { intros i h Hi Hne. pose proof (Hall _ _ Hi) as Hh.
    unfold handler_inv in Hh. unfold holds.
    destruct (hpc h); try done;
      by destruct Hh as (-> & _). }
  destruct (mu (Server.store s)) eqn:Hmu.
  - destruct (count_pos_lookup holds (call <$> Server.handlers s))
      as (i & f & Hi & Hf); [rewrite Hmx; simpl; lia|].
    rewrite list_lookup_fmap in Hi.
    destruct (Server.handlers s !! i) as [h|] eqn:Hhi; simplify_eq/=.
    assert (hpc h = HGet) as Hpc.
    { destruct (hpc h) eqn:Hpc; try done;
        by rewrite (Hout i h Hhi) in Hf by congruence. }
    exists i. unfold Server.handler_move. rewrite Hhi. simpl.
    unfold handler_step. rewrite Hpc. unfold holds in Hf. unfold get_step.
    destruct (gpc (call h)); try done; simpl; eauto.
    destruct (once _); simpl; eauto.
  - destruct (not_all_finished _ Hnot) as (i & h & Hi & Hf).
    assert (holds (call h) = false) as Hh.
    { eapply (count_zero_lookup holds (call <$> Server.handlers s) i).
      - by rewrite Hmx.
      - by rewrite list_lookup_fmap, Hi. }
    exists i. unfold Server.handler_move. rewrite Hi. simpl.
    unfold handler_step. unfold finished in Hf. unfold holds in Hh.
    destruct (hpc h); try done; simpl; eauto.
    + unfold get_step. destruct (gpc (call h)); try done; simpl; eauto.
      rewrite Hmu. simpl. eauto.
    + destruct (Slice.is_nil _); eauto.
    + destruct (close _); eauto.
Qed.

Lemma handlers_terminate (c : Slice.t) (s : Server.t) :
  Slice.is_nil c = false → srv_inv c s → Server.alive s = true →
  ∃ sched,
    forallb finished
      (Server.handlers (Server.run (Server.LHandler <$> sched) s)) = true ∧
    Server.pc (Server.run (Server.LHandler <$> sched) s) = Server.pc s ∧
    Server.trace (Server.run (Server.LHandler <$> sched) s) = Server.trace s ∧
    length sched + handlers_work (Server.handlers s)
      ≤ 11 * length (Server.handlers s).
Proof.
  intros Hc.
  remember (11 * length (Server.handlers s) - handlers_work (Server.handlers s))
    as k eqn:Hk.
  revert s Hk. induction k as [k IH] using lt_wf_ind. intros s Hk Hinv Halive.
  destruct (forallb finished (Server.handlers s)) eqn:Hall.
  - exists []. simpl. repeat (split; [done|]).
    pose proof (handlers_work_bound (Server.handlers s)). lia.
  - destruct (handlers_deadlock_free c s Hinv Hall) as (i & s' & Hmove).
    destruct (handler_move_effect _ _ _ Hmove) as (Hpc & Htr & Hlen & Hwork).
    pose proof (handlers_work_bound (Server.handlers s')).
    assert (Server.step (Server.LHandler i) s = Some s') as Hstep.
    { unfold Server.step. by rewrite Halive. }
    assert (Server.alive s' = true) as Halive'.
    { unfold Server.alive in *. by rewrite Hpc. }
    destruct (IH (11 * length (Server.handlers s')
                  - handlers_work (Server.handlers s'))) with s'
      as (sched & Hdone & Hpc' & Htr' & Hbound);
      [lia|done|by eapply srv_inv_step|done|].
    exists (i :: sched). rewrite fmap_cons, run_cons, Hstep. simpl default.
    split; [done|]. split; [congruence|]. split; [congruence|].
    simpl. lia.
Qed.

(** X14. A graceful shutdown is always possible: from every reachable
    state in which the process lives, the handlers can run until all of
    them have returned, in at most eleven steps each, without touching
    [main] or the trace; none is stuck on the mutex.  When [main] waits
    in [Shutdown], [Shutdown] can then return without error and the
    process ends with status 0 and no log line. *)
Theorem shutdown_can_complete (env : Env) (srv0 : Server.t)
    (ls : list Server.label) :
  start env = Listening srv0 →
  Server.alive (Server.run ls srv0) = true →
  let srv := Server.run ls srv0 in
  ∃ sched,
    let s1 := Server.run (Server.LHandler <$> sched) srv in
    forallb finished (Server.handlers s1) = true ∧
    Server.pc s1 = Server.pc srv ∧
    Server.trace s1 = Server.trace srv ∧
    length sched + handlers_work (Server.handlers srv)
      ≤ 11 * length (Server.handlers srv) ∧
    (∀ k, Server.pc srv = MWait k →
       Server.exit_code (Server.run [Server.LShutdownReturns None] s1)
         = Some 0 ∧
       Server.trace (Server.run [Server.LShutdownReturns None] s1)
         = Server.trace srv ++ [EExit 0]).
Proof.
  intros Hstart Halive srv.
  destruct (reachable_inv env srv0 ls Hstart) as (c & Hc & _ & Hinv).
  fold srv in Hinv, Halive.
  destruct (handlers_terminate c srv (len_pos_not_nil _ Hc) Hinv Halive)
    as (sched & Hdone & Hpc & Htr & Hbound).
  exists sched. cbn zeta. repeat (split; [done|]).
  intros k Hk. rewrite run_cons.
  assert (Server.step (Server.LShutdownReturns None)
            (Server.run (Server.LHandler <$> sched) srv)
          = Some (Server.set_pc (MExit 0)
                    (Server.emit [EExit 0]
                       (Server.run (Server.LHandler <$> sched) srv)))) as ->.
  { unfold Server.step, Server.alive. by rewrite Hpc, Hk, Hdone. }
  simpl. by rewrite Htr.
Qed.

Lemma shutdown_can_complete_witness :
  start env_hello = Listening srv_hello ∧
  Server.alive (Server.run race_hello srv_hello) = true ∧
  ∃ sched,
    forallb finished
      (Server.handlers
         (Server.run (Server.LHandler <$> sched)
            (Server.run race_hello srv_hello))) = true.
Proof.
  assert (start env_hello = Listening srv_hello) as Hstart
    by (vm_compute; reflexivity).
  split; [exact Hstart|]. split; [reflexivity|].
  destruct (shutdown_can_complete env_hello srv_hello race_hello Hstart eq_refl)
    as (sched & H & _).
  exists sched. exact H.
Defined.

(** ** The URL that is shown *)

(** X15. The URL is shown at most once, as a printed line and as a QR
    code that carry the same text: [http://], the discovered address,
    the port the listener was given and the registered secret path.
    Nothing is shown before the address is discovered, and port and
    path never change during the run. *)
Theorem url_displayed (env : Env) (srv0 : Server.t)
    (ls : list Server.label) :
  start env = Listening srv0 →
  let srv := Server.run ls srv0 in
  let path := "/" +:+ Base64.EncodeToString (take 32 (entropy env)) in
  listen env = Ok (Server.port srv0) ∧
  Server.port srv = Server.port srv0 ∧ Server.path srv = path ∧
  (List.filter is_display (main env ls) = [] ∨
   ∃ ip,
     List.filter is_display (main env ls)
     = [EPrintln ("Serving note at: " +:+ "http://" +:+ ip +:+ ":" +:+
                  pretty (Server.port srv0) +:+ path);
        EQR ("http://" +:+ ip +:+ ":" +:+ pretty (Server.port srv0)
             +:+ path)]) ∧
  (main_rank (Server.pc srv) ≤ main_rank (MPrintURL "") →
   List.filter is_display (main env ls) = []).
Proof.
  intros Hstart srv path.
  destruct (start_listening _ _ Hstart) as (tr & c & _ & _ & _ & Hsrv & Hl).
  pose proof (reachable_run_inv env srv0 ls Hstart) as Hinv. fold srv in Hinv.
  assert (Server.path srv0 = path) as Hp by (by rewrite Hsrv).
  assert (main env ls = Server.trace srv) as Hmain
    by (by unfold main; rewrite Hstart).
  split; [done|]. split; [apply (ri_port _ _ Hinv)|].
  split; [by rewrite (ri_path _ _ Hinv)|]. rewrite Hmain. split.
  - destruct (ri_display _ _ Hinv) as [H0|[ip Hip]]; [by left|].
    right. exists ip. rewrite Hip. unfold Server.url. by rewrite Hp.
  - apply (ri_display0 _ _ Hinv).
Qed.

Lemma url_displayed_witness :
  start env_hello = Listening srv_hello ∧
  List.filter is_display
    (main env_hello (Server.LMain :: to_select_hello))
  = [EPrintln ("Serving note at: http://192.0.2.7:4242" +:+ path_hello);
     EQR ("http://192.0.2.7:4242" +:+ path_hello)].
Proof.
  assert (start env_hello = Listening srv_hello) as Hstart
    by (vm_compute; reflexivity).
  split; [exact Hstart|].
  destruct (proj1 (proj2 (proj2 (proj2
    (url_displayed env_hello srv_hello (Server.LMain :: to_select_hello)
       Hstart))))) as [H0|[ip Hip]].
  - vm_compute in H0. discriminate H0.
  - vm_compute. reflexivity.
Defined.

(** ** Who wins *)


Lemma leading_step (c : Slice.t) (p p' : Pool.t) (i j : nat) (f : get_frame) :
  Slice.is_nil c = false → pool_inv c p →
  Pool.step j p = Some p' →
  Pool.frames p !! i = Some f → leading (Pool.store p) f →
  ∃ f', Pool.frames p' !! i = Some f' ∧ leading (Pool.store p') f'.
Proof.
  intros Hc Hinv Hstep Hi [[Ho Hpc]|Hwin].
  2: { destruct (winner_step _ _ _ _ _ Hstep Hi Hwin) as (f' & Hf' & Hw').
       exists f'. split; [done|by right]. }
  assert (holds f = true) as Hh.
  { unfold holds. by destruct Hpc as [->|[->|[->| ->]]]. }
  pose proof (holder_locked c p i f Hinv Hi Hh) as Hmu.
  pose proof (frame_lookup_inv c p i f Hinv Hi) as Hfi.
  unfold Pool.step in Hstep.
  destruct (Pool.frames p !! j) as [g|] eqn:Hj; simplify_eq/=.
  destruct (get_step (Pool.store p) g) as [[s' g']|] eqn:Hg; simplify_eq/=.
  destruct (decide (j = i)) as [->|Hne].
  - assert (g = f) as -> by congruence.
    exists g'. rewrite list_lookup_insert_eq by by eapply lookup_lt_Some.
    split; [done|].
    unfold get_step in Hg. unfold frame_inv in Hfi.
    destruct f as [pc l]; simpl in *.
    destruct Hpc as [->|[->|[->| ->]]]; simpl in *.
    + rewrite Ho in Hg. simplify_eq. left. simpl. auto.
    + simplify_eq. left. simpl. auto.
    + simplify_eq. left. simpl. auto.
    + destruct Hfi as (-> & _). simplify_eq. right.
      unfold winner. simpl. by rewrite Hc.
  - exfalso.
    assert (holds g = false) as Hgh.
    { destruct (holds g) eqn:Hgh; [|done]. destruct Hne.
      by eapply (holder_unique c p j i). }
    unfold get_step in Hg. unfold holds in Hgh.
    destruct (gpc g); try done. by rewrite Hmu in Hg.
Qed.

Lemma leading_exec (c : Slice.t) (sched : list nat) (p : Pool.t) (i : nat)
    (f : get_frame) :
  Slice.is_nil c = false → pool_inv c p →
  Pool.frames p !! i = Some f → leading (Pool.store p) f →
  ∃ f', Pool.frames (Pool.exec sched p) !! i = Some f' ∧
        leading (Pool.store (Pool.exec sched p)) f'.
Proof.
  intros Hc. revert p f.
  induction sched as [|j sched IH]; intros p f Hinv Hi Hl; [by eauto|].
  change (Pool.exec (j :: sched) p)
    with (Pool.exec sched (default p (Pool.step j p))).
  destruct (Pool.step j p) as [p'|] eqn:Hstep; simpl; [|by eauto].
  destruct (leading_step c _ _ _ _ _ Hc Hinv Hstep Hi Hl) as (f' & Hf' & Hl').
  apply (IH p' f'); [by eapply pool_inv_step|done|done].
Qed.

(** X16. First come, first served: among any number of concurrent
    calls on a fresh store, the call that locks the mutex first is the
    one that returns the payload, however the others are scheduled
    afterwards; every other call returns nil. *)
Theorem first_to_lock_wins (c : Slice.t) (n i : nat) (sched : list nat) :
  0 < Slice.len c → i < n →
  let p := Pool.exec (i :: sched) (Pool.init c n) in
  Pool.all_returned p = true →
  Pool.results p !! i = Some (Some c) ∧
  ∀ j, j < n → j ≠ i → Pool.results p !! j = Some (Some Slice.nil).
Proof.
  intros Hlen Hi p Hall. pose proof (len_pos_not_nil _ Hlen) as Hc.
  pose proof (pool_inv_init c n) as Hinv0.
  assert (Pool.step i (Pool.init c n)
          = Some (Pool.mk (set_mu true (newNoteStore c))
                    (<[i := goto GOnce frame0]> (replicate n frame0))))
    as Hstep.
  { unfold Pool.step. simpl. by rewrite lookup_replicate_2. }
  assert (p = Pool.exec sched
                (Pool.mk (set_mu true (newNoteStore c))
                   (<[i := goto GOnce frame0]> (replicate n frame0))))
    as Hp.
  { unfold p. change (Pool.exec (i :: sched) (Pool.init c n))
      with (Pool.exec sched (default (Pool.init c n)
                               (Pool.step i (Pool.init c n)))).
    by rewrite Hstep. }
  pose proof (pool_inv_step c Hc _ _ _ Hinv0 Hstep) as Hinv1.
  destruct (leading_exec c sched _ i (goto GOnce frame0) Hc Hinv1)
    as (f & Hf & Hlead).
  { simpl. apply list_lookup_insert_eq. by rewrite length_replicate. }
  { left. simpl. auto. }
  rewrite <- Hp in Hf, Hlead.
  pose proof (pool_inv_exec c Hc sched _ Hinv1) as Hinv. rewrite <- Hp in Hinv.
  pose proof (all_returned_lookup _ _ _ Hall Hf) as Hret.
  destruct Hlead as [[_ Hpc]|Hwin].
  { rewrite Hret in Hpc. by destruct Hpc as [?|[?|[?|?]]]. }
  destruct f as [pc l]; simpl in Hret; subst pc.
  assert (Pool.results p !! i = Some (Some l)) as Hri by (by apply results_lookup).
  assert (Slice.is_nil l = false) as Hl.
  { unfold winner in Hwin; simpl in Hwin. by destruct (Slice.is_nil l). }
  destruct (returned_payload c p i l Hinv Hri) as [-> | ->]; [done|].
  split; [done|].
  destruct (final_results c p Hinv Hall) as (w & Hw & Hothers).
  { unfold p. rewrite exec_length. simpl. rewrite length_replicate. lia. }
  assert (w = i) as ->.
  { by eapply (winner_unique c p w i c c). }
  intros j Hj Hne. apply Hothers; [|done].
  unfold p. rewrite exec_length. simpl. by rewrite length_replicate.
Qed.

Lemma first_to_lock_wins_witness :
  0 < Slice.len (Some hello) ∧ 1 < 2 ∧
  Pool.results
    (Pool.exec [1; 0; 0; 1; 1; 1; 1; 1; 0; 0; 0] (Pool.init (Some hello) 2))
    !! 1 = Some (Some (Some hello)).
Proof.
  assert (0 < Slice.len (Some hello)) as H1 by (simpl; lia).
  assert (1 < 2) as H2 by lia.
  split; [exact H1|]. split; [exact H2|].
  exact (proj1 (first_to_lock_wins (Some hello) 2 1
                  [0; 0; 1; 1; 1; 1; 1; 0; 0; 0] H1 H2 eq_refl)).
Defined.
